(** * The Docker Hub image-size fetcher ([fetch-real-sizes.py])

    A shallow embedding of the tag crawler ([fetch_all_tags]) and of the
    reconciliation done by [main], with the properties of the design
    document stated and proved over it.

    - Python numbers: [int] is [Z]; [float] is IEEE binary64, taken from
      the Standard Library's [SpecFloat] at [prec = 53], [emax = 1024].
    - Python dictionaries keyed by strings: [gmap string _].
    - The network, the clock and the console: a deterministic server
      oracle and a trace of events. *)

From Stdlib Require Import ZArith QArith.
From Stdlib Require Import Floats.SpecFloat.
From stdpp Require Import gmap strings list fin_maps.

Local Open Scope Z_scope.

(** ** Python values *)

Module Py.

(** A binary64 float. *)
Abbreviation float := spec_float.

Definition fadd : float -> float -> float := SFadd 53 1024.
Definition fdiv : float -> float -> float := SFdiv 53 1024.
Definition fltb : float -> float -> bool := SFltb.
Definition feqb : float -> float -> bool := SFeqb.

(** The float nearest to the integer [n] (ties to even); an infinity when
    [n] is out of range. *)
Definition nearest_float (n : Z) : float := binary_normalize 53 1024 n 0 false.

(** The float nearest to the quotient [a / b] of two integers, [0 < b]. *)
Definition nearest_quotient (a b : Z) : float :=
  match a, b with
  | Z0, _ => S754_zero false
  | Zpos m, Zpos d => fdiv (S754_finite false m 0) (S754_finite false d 0)
  | Zneg m, Zpos d => fdiv (S754_finite true m 0) (S754_finite false d 0)
  | _, _ => S754_nan
  end.

(** The exceptions the modelled code can raise. *)
Inductive exn :=
| TypeError
| OverflowError
| UnboundLocalError.

(** The outcome of an expression: a value, or a raised exception. *)
Inductive res (A : Type) :=
| Ok (a : A)
| Raise (e : exn).
Arguments Ok {A} a.
Arguments Raise {A} e.

Definition rbind {A B} (r : res A) (k : A -> res B) : res B :=
  match r with
  | Ok a => k a
  | Raise e => Raise e
  end.

(** What [json.load] and [response.json()] produce. *)
#[warnings="-register-all"]
Inductive value :=
| PNone
| PBool (b : bool)
| PInt (n : Z)
| PFloat (f : float)
| PStr (s : string)
| PList (l : list value)
| PDict (d : list (string * value)).

(** Numbers: [int], [float], and [bool] (a subclass of [int]). *)
Inductive num :=
| NInt (n : Z)
| NFloat (f : float).

Definition as_num (v : value) : option num :=
  match v with
  | PBool b => Some (NInt (if b then 1 else 0))
  | PInt n => Some (NInt n)
  | PFloat f => Some (NFloat f)
  | _ => None
  end.

Definition of_num (x : num) : value :=
  match x with
  | NInt n => PInt n
  | NFloat f => PFloat f
  end.

(** [bool(v)]: the truth value of [v]. *)
Definition truthy (v : value) : bool :=
  match v with
  | PNone => false
  | PBool b => b
  | PInt n => negb (n =? 0)
  | PFloat f => negb (feqb f (S754_zero false))
  | PStr s => negb (String.eqb s "")
  | PList l => match l with [] => false | _ => true end
  | PDict d => match d with [] => false | _ => true end
  end.

(** The largest magnitude an [int] may have and still convert to a
    [float]: from [2^1024 - 2^970] on, rounding reaches [2^1024] and
    CPython raises [OverflowError]. *)
Definition float_limit : Z := 2 ^ 1024 - 2 ^ 970.

(** [float(n)] as the arithmetic operators apply it to an [int] operand. *)
Definition float_of_int (n : Z) : res float :=
  if Z.abs n <? float_limit then Ok (nearest_float n) else Raise OverflowError.

(** [v == 0]. Never raises; only a number can be equal to [0]. *)
Definition eq_zero (v : value) : bool :=
  match as_num v with
  | Some (NInt n) => n =? 0
  | Some (NFloat f) => feqb f (S754_zero false)
  | None => false
  end.

(** [v > 0]. Raises [TypeError] unless [v] is a number. *)
Definition gt_zero (v : value) : res bool :=
  match as_num v with
  | Some (NInt n) => Ok (0 <? n)
  | Some (NFloat f) => Ok (fltb (S754_zero false) f)
  | None => Raise TypeError
  end.

(** [x + y] on numbers. *)
Definition add (x y : num) : res num :=
  match x, y with
  | NInt a, NInt b => Ok (NInt (a + b))
  | NInt a, NFloat g => rbind (float_of_int a) (fun f => Ok (NFloat (fadd f g)))
  | NFloat f, NInt b => rbind (float_of_int b) (fun g => Ok (NFloat (fadd f g)))
  | NFloat f, NFloat g => Ok (NFloat (fadd f g))
  end.

(** [sum(vs)]: left to right from the [int] [0]; a summand that is not
    a number raises [TypeError]. (From Python 3.12 on [sum] compensates
    the rounding errors of float summands; the plain sum is modelled.) *)
Fixpoint sum_from (acc : num) (vs : list value) : res num :=
  match vs with
  | [] => Ok acc
  | v :: vs' =>
      match as_num v with
      | Some y => rbind (add acc y) (fun acc' => sum_from acc' vs')
      | None => Raise TypeError
      end
  end.

Definition sum_of (vs : list value) : res num := sum_from (NInt 0) vs.

(** [x / d] for a number [x] and a positive [int] [d]: true division.
    On two [int]s the quotient is rounded once, and a quotient that
    rounds to [2^1024] or more raises [OverflowError]. *)
Definition truediv (x : num) (d : Z) : res float :=
  match x with
  | NInt n =>
      if Z.abs n <? float_limit * d then Ok (nearest_quotient n d)
      else Raise OverflowError
  | NFloat f => rbind (float_of_int d) (fun g => Ok (fdiv f g))
  end.

(** Round half to even of the rational [n / d], [0 < d]. *)
Definition round_half_even (n d : Z) : Z :=
  let q := n / d in
  let r := n mod d in
  match 2 * r ?= d with
  | Lt => q
  | Gt => q + 1
  | Eq => if Z.even q then q else q + 1
  end.

(** The float written [h / 100] in decimal, e.g. [hundredths 320] is the
    float [3.2]. *)
Definition hundredths (h : Z) : float := nearest_quotient h 100.

(** [round(x, 2)] on a float: the exact value of [x] is rounded, half to
    even, to two decimals, and the float nearest to that decimal is
    returned. Infinities and NaN round to themselves. *)
Definition round2 (x : float) : float :=
  match x with
  | S754_finite s m e =>
      if 0 <=? e then x
      else
        let h := round_half_even (100 * Zpos m) (2 ^ (- e)) in
        if h =? 0 then S754_zero s
        else if s then hundredths (- h) else hundredths h
  | _ => x
  end.

End Py.

(** ** The data of a run *)

(** One entry of a tag's [images] array; [img.get('size', 0)] reads
    [img_size], [None] standing for a missing key. *)
Record image := Image { img_size : option Py.value }.

(** One tag record of a page. The two size fields keep the untyped JSON
    value, since the code compares and adds them as they come. *)
Record tag := Tag {
  tag_name : option string;
  tag_full_size : option Py.value;
  tag_images : option (list image)
}.

(** The parsed body of one page of the listing endpoint. *)
Record body := Body {
  results : option (list tag);
  next : option Py.value
}.

(** One record of [games.json]; only its [id] is read. *)
Record game := Game { game_id : string }.

(** The two files [main] opens for reading; [None] is a missing file. *)
Record files := Files {
  games_json : option (list game);
  image_sizes_json : option (gmap string Py.value)
}.

(** What [requests.get] followed by [raise_for_status] and [json] comes
    to: a parsed body, or a [RequestException]. *)
Inductive response :=
| Failed
| Response (data : body).

(** The lines the program prints, without their layout. *)
Inductive message :=
| MsgFetching
| MsgError (page : nat)
| MsgRetrying (wait_time : Z)
| MsgFailed (page : nat)
| MsgPage (page fetched total : nat)
| MsgBanner
| MsgFound (n : nat)
| MsgGamesNotFound
| MsgFetched (n : nat)
| MsgTagMissing (id : string)
| MsgSummary (total found missing : nat).

(** What a run does to the outside world, in order. *)
Inductive event :=
| Get (page : nat)
| Sleep (secs : Q)
| Print (m : message)
| WriteSizes (final_sizes : gmap string Py.value).

(** ** [fetch_all_tags]: absorbing the tag records of a page *)

Import Py.

(** Lines 59-66: the size in bytes the loop body ends up with. The
    [images] array is consulted only when [full_size == 0]. *)
Definition effective_size (t : tag) : res value :=
  let full_size := default (PInt 0) (tag_full_size t) in
  if eq_zero full_size then
    let images := default [] (tag_images t) in
    match images with
    | [] => Ok full_size
    | _ :: _ =>
        rbind (sum_of (map (fun img => default (PInt 0) (img_size img)) images))
              (fun s => Ok (of_num s))
    end
  else Ok full_size.

(** Line 70: [round(full_size / (1024 ** 3), 2)]. *)
Definition size_gb (full_size : value) : res float :=
  match as_num full_size with
  | Some x => rbind (truediv x (1024 ^ 3)) (fun q => Ok (round2 q))
  | None => Raise TypeError
  end.

(** Lines 57-71: the body of [for tag in results]. *)
Definition absorb_tag (all_tags : gmap string float) (t : tag)
  : res (gmap string float) :=
  let name := default "" (tag_name t) in
  rbind (effective_size t) (fun full_size =>
  if truthy (PStr name) then
    rbind (gt_zero full_size) (fun positive =>
    if (positive : bool) then
      rbind (size_gb full_size) (fun g => Ok (<[name := g]> all_tags))
    else Ok all_tags)
  else Ok all_tags).

(** Lines 56-71: [for tag in results]. *)
Fixpoint absorb (all_tags : gmap string float) (tags : list tag)
  : res (gmap string float) :=
  match tags with
  | [] => Ok all_tags
  | t :: tags' => rbind (absorb_tag all_tags t) (fun m => absorb m tags')
  end.

(** ** Effects: requests, sleeps and printed lines *)

(** A computation starts with the number of requests made so far and
    yields a result or an exception, the new number of requests, and the
    events it caused. *)
Definition M (A : Type) : Type := nat -> res A * nat * list event.

Definition mret {A} (a : A) : M A := fun n => (Ok a, n, []).

Definition mbind {A B} (m : M A) (k : A -> M B) : M B :=
  fun n =>
    match m n with
    | (Ok a, n', evs) =>
        match k a n' with
        | (r, n'', evs') => (r, n'', evs ++ evs')
        end
    | (Raise e, n', evs) => (Raise e, n', evs)
    end.

Definition lift {A} (r : res A) : M A := fun n => (r, n, []).

Definition emit (e : event) : M unit := fun n => (Ok tt, n, [e]).

Declare Scope prog_scope.
Delimit Scope prog_scope with prog.
Notation "x <- m ;; k" := (mbind m (fun x => k))
  (at level 100, m at next level, right associativity) : prog_scope.
Notation "m ;;; k" := (mbind m (fun _ => k))
  (at level 100, right associativity) : prog_scope.

(** A loop that may run for ever is given fuel: [None] says the fuel ran
    out before the loop ended; the events so far are kept. *)
Definition F (A : Type) : Type := nat -> option (res A) * nat * list event.

Definition run {A} (m : M A) : F A :=
  fun n => match m n with (r, n', evs) => (Some r, n', evs) end.

Definition fbind {A B} (m : F A) (k : A -> F B) : F B :=
  fun n =>
    match m n with
    | (Some (Ok a), n', evs) =>
        match k a n' with
        | (r, n'', evs') => (r, n'', evs ++ evs')
        end
    | (Some (Raise e), n', evs) => (Some (Raise e), n', evs)
    | (None, n', evs) => (None, n', evs)
    end.

Notation "x <-- m ;; k" := (fbind m (fun x => k))
  (at level 100, m at next level, right associativity) : prog_scope.

Section Crawl.

(** The registry: what the request number [n] of the run, asking for
    page [page], is answered. *)
Variable server : nat -> nat -> response.

Local Open Scope prog_scope.

(** Lines 31-33 and 42-44: one request for [page]. *)
Definition attempt (page : nat) : M response :=
  fun n => (Ok (server n page), S n, [Get page]).

(** How fetching one page ends. *)
Inductive fetched :=
| Got (data : body)
| GaveUp
| FellThrough.

(** Lines 37-50: [for retry in range(3)], over the retries left. A
    failure at [retry == 2] returns from [fetch_all_tags] ([GaveUp]);
    running out of retries would fall through to line 52. *)
Fixpoint retry_loop (page : nat) (retries : list nat) : M fetched :=
  match retries with
  | [] => mret FellThrough
  | retry :: rest =>
      let wait_time := 2 ^ (Z.of_nat retry + 1) in
      emit (Print (MsgRetrying wait_time)) ;;;
      emit (Sleep (inject_Z wait_time)) ;;;
      r <- attempt page ;;
      match r with
      | Response data => mret (Got data)
      | Failed =>
          if (retry =? 2)%nat then
            emit (Print (MsgFailed page)) ;;; mret GaveUp
          else retry_loop page rest
      end
  end.

(** Lines 30-50: the first request and, when it fails, the retries. *)
Definition fetch_page (page : nat) : M fetched :=
  r <- attempt page ;;
  match r with
  | Response data => mret (Got data)
  | Failed => emit (Print (MsgError page)) ;;; retry_loop page (seq 0 3)
  end.

(** How one turn of [while True] ends: [Stop] is a [break] or the
    [return] of line 49, both of which return [all_tags]; [Next] goes on
    to the following page. *)
Inductive turn :=
| Stop (all_tags : gmap string float)
| Next (data : body) (all_tags : gmap string float).

(** Lines 28-77: one turn of the loop. [data] is the body left by the
    turn before, if any. *)
Definition loop_body (page : nat) (data : option body)
    (all_tags : gmap string float) : M turn :=
  f <- fetch_page page ;;
  match f with
  | GaveUp => mret (Stop all_tags)
  | _ =>
      data <- lift (match f, data with
                    | Got d, _ => Ok d
                    | _, Some d => Ok d
                    | _, None => Raise UnboundLocalError
                    end) ;;
      match default [] (results data) with
      | [] => mret (Stop all_tags)
      | (_ :: _) as results =>
          all_tags <- lift (absorb all_tags results) ;;
          emit (Print (MsgPage page (length results) (size all_tags))) ;;;
          if negb (truthy (default PNone (next data)))
          then mret (Stop all_tags)
          else mret (Next data all_tags)
      end
  end.

(** Lines 27-83: [while True], with [page += 1] and the half-second
    sleep between two turns. *)
Fixpoint crawl (fuel : nat) (page : nat) (data : option body)
    (all_tags : gmap string float) : F (gmap string float) :=
  match fuel with
  | O => fun n => (None, n, [])
  | S fuel' =>
      t <-- run (loop_body page data all_tags) ;;
      match t with
      | Stop all_tags => run (mret all_tags)
      | Next data all_tags =>
          _ <-- run (emit (Sleep (1 # 2))) ;;
          crawl fuel' (S page) (Some data) all_tags
      end
  end.

(** Lines 19-83. *)
Definition fetch_all_tags (fuel : nat) : F (gmap string float) :=
  _ <-- run (emit (Print MsgFetching)) ;;
  crawl fuel 1%nat None ∅.

End Crawl.

(** ** [main]: reconciliation with the expected games *)

(** The variables lines 114-116 initialise and the loop of lines 118-133
    updates; [warned] lists the ids of the warnings printed, in order. *)
Record reconciled := Reconciled {
  final_sizes : gmap string value;
  found_count : nat;
  missing_count : nat;
  warned : list string
}.

(** Lines 119-133: the body of [for game in games]. *)
Definition reconcile_game (hub_sizes : gmap string float)
    (existing_sizes : gmap string value) (st : reconciled) (g : game)
  : reconciled :=
  let id := game_id g in
  match hub_sizes !! id with
  | Some s =>
      {| final_sizes := <[id := PFloat s]> (final_sizes st);
         found_count := S (found_count st);
         missing_count := missing_count st;
         warned := warned st |}
  | None =>
      {| final_sizes :=
           match existing_sizes !! id with
           | Some s => <[id := s]> (final_sizes st)
           | None => <[id := PInt 0]> (final_sizes st)
           end;
         found_count := found_count st;
         missing_count := S (missing_count st);
         warned := warned st ++ [id] |}
  end.

(** Lines 114-133. *)
Definition reconcile (games : list game) (hub_sizes : gmap string float)
    (existing_sizes : gmap string value) : reconciled :=
  fold_left (reconcile_game hub_sizes existing_sizes) games
    {| final_sizes := ∅; found_count := 0; missing_count := 0; warned := [] |}.

(** Line 95: [{game['id'] for game in games}]. *)
Definition expected_ids (games : list game) : gset string :=
  list_to_set (map game_id games).

Section Main.

Variable server : nat -> nat -> response.

Local Open Scope prog_scope.

(** Lines 85-145. [games] is bound only when [games.json] could be
    opened; the size statistics printed after the summary (lines
    147-155) are left out. *)
Definition main (fuel : nat) (fs : files) : F unit :=
  _ <-- run (emit (Print MsgBanner)) ;;
  _ <-- run (match games_json fs with
             | Some games => emit (Print (MsgFound (size (expected_ids games))))
             | None => emit (Print MsgGamesNotFound)
             end) ;;
  hub_sizes <-- fetch_all_tags server fuel ;;
  _ <-- run (emit (Print (MsgFetched (size hub_sizes)))) ;;
  let existing_sizes := default ∅ (image_sizes_json fs) in
  games <-- run (lift (match games_json fs with
                       | Some games => Ok games
                       | None => Raise UnboundLocalError
                       end)) ;;
  let r := reconcile games hub_sizes existing_sizes in
  _ <-- run (fun n => (Ok tt, n, map (fun id => Print (MsgTagMissing id)) (warned r))) ;;
  _ <-- run (emit (WriteSizes (final_sizes r))) ;;
  run (emit (Print (MsgSummary (length games) (found_count r) (missing_count r)))).

End Main.

(** ** Definitions used to state the properties *)

(** *** Reconciliation *)

(** The precedence the design document gives for one expected id: the
    fresh aggregated size, else the size of the prior snapshot, else [0]. *)
Definition resolved (aggregated : gmap string float)
    (prior_snapshot : gmap string value) (id : string) : value :=
  match aggregated !! id with
  | Some s => PFloat s
  | None =>
      match prior_snapshot !! id with
      | Some s => s
      | None => PInt 0
      end
  end.

(** Is the game's id a key of the aggregated mapping? *)
Definition in_hub (hub_sizes : gmap string float) (g : game) : bool :=
  bool_decide (is_Some (hub_sizes !! game_id g)).

(** *** Tag records and their sizes *)

(** The sizes [img.get('size', 0)] of the entries of a tag's [images],
    none when the key is missing. *)
Definition image_sizes (t : tag) : list value :=
  map (λ img, default (PInt 0) (img_size img)) (default [] (tag_images t)).

(** The fallback of line 66: the sum of the sizes of the [images]. *)
Definition summed_images (t : tag) : res value :=
  rbind (sum_of (image_sizes t)) (λ s, Ok (of_num s)).

(** The effective size as the design document words it: the primary
    size when it is positive, else the sum of the sub-record sizes when
    the record has a sub-record list, else [0]. *)
Definition claimed_effective_size (t : tag) : res value :=
  let primary := default (PInt 0) (tag_full_size t) in
  rbind (gt_zero primary) (λ positive : bool,
    if positive then Ok primary
    else
      match tag_images t with
      | Some _ => summed_images t
      | None => Ok (PInt 0)
      end).

(** Every size stored for a key was computed from a positive number of
    bytes. *)
Definition from_positive_bytes (all_tags : gmap string float) : Prop :=
  ∀ name g, all_tags !! name = Some g →
    ∃ full_size, gt_zero full_size = Ok true ∧ size_gb full_size = Ok g.

(** A field that is absent or an [int]; a field that is absent or a
    JSON number. *)
Definition absent_or_int (field : option value) : bool :=
  match field with
  | None | Some (PInt _) => true
  | Some _ => false
  end.

Definition absent_or_number (field : option value) : bool :=
  match field with
  | None | Some (PInt _) | Some (PFloat _) => true
  | Some _ => false
  end.

(** The types under which absorbing a page is said to raise nothing. *)
Definition sizes_typed (t : tag) : bool :=
  absent_or_int (tag_full_size t)
  && forallb (λ img, absent_or_number (img_size img)) (default [] (tag_images t)).

(** A JSON number: an [int] or a [float]. *)
Definition is_number (v : value) : bool :=
  match v with
  | PInt _ | PFloat _ => true
  | _ => false
  end.

(** The magnitude of an [int], [0] for any other value; and the sum of
    the magnitudes of the [int]s of a list. *)
Definition int_magnitude (v : value) : Z :=
  match v with
  | PInt n => Z.abs n
  | _ => 0
  end.

Fixpoint int_mass (vs : list value) : Z :=
  match vs with
  | [] => 0
  | v :: vs' => int_magnitude v + int_mass vs'
  end.

(** The [int]s of a tag record stay within the range of floats: an
    [int] [full_size] is below the least one whose quotient by
    [1024 ** 3] overflows, and the [int] sizes of the [images] are, in
    total magnitude, below the least [int] that does not convert. *)
Definition sizes_in_float_range (t : tag) : bool :=
  (match tag_full_size t with
   | Some (PInt n) => n <? float_limit * 1024 ^ 3
   | _ => true
   end)
  && (int_mass (image_sizes t) <? float_limit).

(** A number of bytes that line 70 can divide by [1024 ** 3]. *)
Definition divides (x : num) : Prop :=
  match x with
  | NInt a => a < float_limit * 1024 ^ 3
  | NFloat _ => True
  end.

(** A partial sum [acc] can take [int]s of total magnitude [mass] and
    still convert to a float. *)
Definition has_room (acc : num) (mass : Z) : Prop :=
  match acc with
  | NInt a => Z.abs a + mass < float_limit
  | NFloat _ => mass < float_limit
  end.

(** *** Traces *)

(** The pages requested, the sleeps, and the mappings written to
    [image-sizes.json], each in order. *)
Definition gets (evs : list event) : list nat :=
  omap (λ e, match e with Get page => Some page | _ => None end) evs.

Definition sleeps (evs : list event) : list Q :=
  omap (λ e, match e with Sleep secs => Some secs | _ => None end) evs.

Definition writes (evs : list event) : list (gmap string value) :=
  omap (λ e, match e with WriteSizes m => Some m | _ => None end) evs.

(** Each request is for the page of the request before it or for the
    page after that one, starting from [page]. *)
Fixpoint in_page_order (page : nat) (pages : list nat) : bool :=
  match pages with
  | [] => true
  | q :: rest => ((q =? page)%nat || (q =? S page)%nat) && in_page_order q rest
  end.

(** The requests of a crawl go through the pages in order from page 1:
    a page is requested again only as a retry, and the page requested
    after it is the next one. *)
Definition pages_in_order (pages : list nat) : bool :=
  match pages with
  | [] => true
  | q :: rest => (q =? 1)%nat && in_page_order 1 rest
  end.

(** The three ways the crawl stops at [page], started there after [n]
    requests with [all_tags] aggregated: with which mapping, after how
    many requests, and with which events. *)
Inductive stops (server : nat → nat → response) (page : nat)
    (all_tags : gmap string float) (n : nat)
  : gmap string float → nat → list event → Prop :=
| failure_stopped n' evs :
    fetch_page server page n = (Ok GaveUp, n', evs) →
    stops server page all_tags n all_tags n' evs
| exhausted_stopped data n' evs :
    fetch_page server page n = (Ok (Got data), n', evs) →
    default [] (results data) = [] →
    stops server page all_tags n all_tags n' evs
| no_next_stopped data n' evs all_tags' :
    fetch_page server page n = (Ok (Got data), n', evs) →
    default [] (results data) ≠ [] →
    absorb all_tags (default [] (results data)) = Ok all_tags' →
    truthy (default PNone (next data)) = false →
    stops server page all_tags n all_tags' n'
      (evs ++ [Print (MsgPage page (length (default [] (results data)))
                        (size all_tags'))]).

(** A server that answers the requests of a run from a script, whatever
    page is asked for, and fails once the script is over. *)
Definition scripted (answers : list response) : nat -> nat -> response :=
  fun n _ => nth n answers Failed.

(** ** Further definitions: pages in sequence *)

(** The tag records of a page, [data.get('results', [])]. *)
Definition page_tags (b : body) : list tag := default [] (results b).

(** The page makes the loop go on: it has records and a truthy [next]. *)
Definition continues (b : body) : bool :=
  match page_tags b with
  | [] => false
  | _ :: _ => truthy (default PNone (next b))
  end.

(** The records of pages absorbed one page after the other. *)
Fixpoint absorb_pages (all_tags : gmap string float) (bs : list body)
  : res (gmap string float) :=
  match bs with
  | [] => Ok all_tags
  | b :: bs' => rbind (absorb all_tags (page_tags b)) (λ m, absorb_pages m bs')
  end.

(** The names under which the records of a list can be stored. *)
Definition tag_names (tags : list tag) : gset string :=
  list_to_set (map (λ t, default "" (tag_name t)) tags).

(** Every body the server sends has sizes of the types and in the range
    under which absorbing raises nothing. *)
Definition serves_typed_pages (server : nat → nat → response) : Prop :=
  ∀ k p d, server k p = Response d →
    forallb sizes_typed (page_tags d) = true
    ∧ forallb sizes_in_float_range (page_tags d) = true.

(** The tag record is one the server sends in some body. *)
Definition served (server : nat → nat → response) (t : tag) : Prop :=
  ∃ k p d, server k p = Response d ∧ t ∈ page_tags d.

(** A float that is [+0.0], positive and finite, or [+inf]. *)
Definition not_negative (g : float) : bool :=
  match g with
  | S754_zero false | S754_finite false _ _ | S754_infinity false => true
  | _ => false
  end.

(** ** Further definitions: the pace of the requests *)

(** Reading a trace with [slept] telling whether a sleep has passed
    since the last request: [None] when a request comes without one,
    else what is known after the last event. *)
Fixpoint pace (slept : bool) (evs : list event) : option bool :=
  match evs with
  | [] => Some slept
  | Get _ :: rest => if slept then pace false rest else None
  | Sleep _ :: rest => pace true rest
  | _ :: rest => pace slept rest
  end.

(** ** [main], lines 147-155: the size statistics *)

Module Stats.

(** [n ? f] for an [int] and a float, on their exact values; [None] when
    [f] is a NaN, which compares false with everything. *)
Definition int_float_compare (n : Z) (f : float) : option comparison :=
  match f with
  | S754_nan => None
  | S754_infinity s => Some (if s then Gt else Lt)
  | S754_zero _ => Some (n ?= 0)
  | S754_finite s m e =>
      let v := if s then Zneg m else Zpos m in
      Some (if 0 <=? e then n ?= v * 2 ^ e else n * 2 ^ (- e) ?= v)
  end.

(** Comparing two numbers; Python compares an [int] and a float without
    rounding either. *)
Definition compare (x y : num) : option comparison :=
  match x, y with
  | NInt a, NInt b => Some (a ?= b)
  | NInt a, NFloat g => int_float_compare a g
  | NFloat f, NInt b => option_map CompOpp (int_float_compare b f)
  | NFloat f, NFloat g => SFcompare f g
  end.

(** [x < y] and [x > y]. *)
Definition lt (x y : num) : bool :=
  match compare x y with Some Lt => true | _ => false end.

Definition gt (x y : num) : bool :=
  match compare x y with Some Gt => true | _ => false end.

(** [min] and [max] of a non-empty list, [cur] being the smallest
    (largest) so far: a later item replaces it only when it is strictly
    smaller (larger). *)
Fixpoint min_from (cur : num) (items : list num) : num :=
  match items with
  | [] => cur
  | x :: items' => min_from (if lt x cur then x else cur) items'
  end.

Fixpoint max_from (cur : num) (items : list num) : num :=
  match items with
  | [] => cur
  | x :: items' => max_from (if gt x cur then x else cur) items'
  end.

(** The float that [:.2f] formats; an [int] is converted first. *)
Definition to_float (x : num) : res float :=
  match x with
  | NInt n => float_of_int n
  | NFloat f => Ok f
  end.

(** Line 149: [[s for s in final_sizes.values() if s > 0]]. What passes
    the test is a number. *)
Fixpoint positive_sizes (values : list value) : res (list num) :=
  match values with
  | [] => Ok []
  | v :: values' =>
      rbind (gt_zero v) (λ positive : bool,
      rbind (positive_sizes values') (λ sizes,
      Ok (if positive
          then match as_num v with Some x => x :: sizes | None => sizes end
          else sizes)))
  end.

(** The lines of the statistics, with the float each of them formats. *)
Inductive line :=
| Header
| Min (x : float)
| Max (x : float)
| Average (x : float)
| Total (x : float).

(** Lines 148-155, on the values of [final_sizes] in the order of the
    dictionary: the lines printed, then how the block ends. *)
Definition size_statistics (values : list value) : list line * res unit :=
  match values with
  | [] => ([], Ok tt)
  | _ :: _ =>
      match positive_sizes values with
      | Raise e => ([], Raise e)
      | Ok [] => ([], Ok tt)
      | Ok ((s :: rest) as sizes) =>
          match to_float (min_from s rest) with
          | Raise e => ([Header], Raise e)
          | Ok lo =>
              match to_float (max_from s rest) with
              | Raise e => ([Header; Min lo], Raise e)
              | Ok hi =>
                  match rbind (sum_of (map of_num sizes))
                          (λ total, truediv total (Z.of_nat (length sizes))) with
                  | Raise e => ([Header; Min lo; Max hi], Raise e)
                  | Ok avg =>
                      match rbind (sum_of (map of_num sizes)) to_float with
                      | Raise e => ([Header; Min lo; Max hi; Average avg], Raise e)
                      | Ok total =>
                          ([Header; Min lo; Max hi; Average avg; Total total],
                           Ok tt)
                      end
                  end
              end
          end
      end
  end.

End Stats.

(** The values of a mapping, in any order a dictionary can list them. *)
Definition lists_values (final_sizes : gmap string value) (values : list value)
  : Prop :=
  values ≡ₚ (map_to_list final_sizes).*2.

(** * Properties *)

(** ** Reconciliation: what the loop of [main] computes *)

Section Reconcile.

Variables (hub_sizes : gmap string float) (existing_sizes : gmap string value).

Lemma reconcile_game_final st g :
  final_sizes (reconcile_game hub_sizes existing_sizes st g) =
  <[game_id g := resolved hub_sizes existing_sizes (game_id g)]> (final_sizes st).
Proof.
  unfold reconcile_game, resolved.
  destruct (hub_sizes !! game_id g); [reflexivity|]. cbn.
  destruct (existing_sizes !! game_id g); reflexivity.
Qed.

Lemma fold_final games : ∀ st id,
  final_sizes (fold_left (reconcile_game hub_sizes existing_sizes) games st) !! id =
  if decide (id ∈ map game_id games)
  then Some (resolved hub_sizes existing_sizes id)
  else final_sizes st !! id.
Proof.
  induction games as [|g games IH]; intros st id; cbn [fold_left map].
  - rewrite decide_False; [reflexivity | apply not_elem_of_nil].
  - rewrite IH, reconcile_game_final.
    destruct (decide (id ∈ map game_id games)) as [Hin|Hin].
    + rewrite decide_True; [reflexivity | apply elem_of_cons; by right].
    + destruct (decide (game_id g = id)) as [<-|Hne].
      * rewrite lookup_insert_eq, decide_True; [reflexivity | apply elem_of_cons; by left].
      * rewrite lookup_insert_ne by done.
        rewrite decide_False; [reflexivity|].
        rewrite elem_of_cons. intros [->|?]; done.
Qed.

Lemma in_hub_lookup g :
  in_hub hub_sizes g =
  match hub_sizes !! game_id g with Some _ => true | None => false end.
Proof.
  unfold in_hub. destruct (hub_sizes !! game_id g).
  - apply bool_decide_eq_true_2. eauto.
  - apply bool_decide_eq_false_2. intros [? ?]. done.
Qed.

Lemma fold_counts games : ∀ st,
  let st' := fold_left (reconcile_game hub_sizes existing_sizes) games st in
  found_count st' =
    (found_count st + length (List.filter (in_hub hub_sizes) games))%nat
  ∧ missing_count st' =
      (missing_count st
       + length (List.filter (λ g, negb (in_hub hub_sizes g)) games))%nat
  ∧ warned st' =
      warned st
      ++ map game_id (List.filter (λ g, negb (in_hub hub_sizes g)) games).
Proof.
  induction games as [|g games IH]; intros st; cbn [fold_left].
  - cbn. rewrite app_nil_r. repeat split; lia.
  - destruct (IH (reconcile_game hub_sizes existing_sizes st g))
      as (Hf & Hm & Hw). cbn zeta.
    rewrite Hf, Hm, Hw. clear IH Hf Hm Hw.
    unfold reconcile_game. cbn [List.filter].
    rewrite (in_hub_lookup g).
    destruct (hub_sizes !! game_id g) as [s|]; cbn.
    + repeat split; lia.
    + rewrite <- app_assoc. cbn. repeat split; lia.
Qed.

End Reconcile.

Lemma reconcile_lookup games hub_sizes existing_sizes id :
  final_sizes (reconcile games hub_sizes existing_sizes) !! id =
  if decide (id ∈ map game_id games)
  then Some (resolved hub_sizes existing_sizes id)
  else None.
Proof. unfold reconcile. rewrite fold_final. cbn. by rewrite lookup_empty. Qed.

Lemma reconcile_dom games hub_sizes existing_sizes :
  dom (final_sizes (reconcile games hub_sizes existing_sizes))
  = expected_ids games.
Proof.
  apply set_eq. intros id. unfold expected_ids.
  rewrite elem_of_dom, reconcile_lookup, elem_of_list_to_set.
  destruct (decide (id ∈ map game_id games)) as [Hin|Hin].
  - split; [done | eauto].
  - split; [intros [? ?]; done | done].
Qed.

Lemma reconcile_missing games hub_sizes existing_sizes :
  missing_count (reconcile games hub_sizes existing_sizes)
  = length (List.filter (λ g, negb (in_hub hub_sizes g)) games).
Proof.
  unfold reconcile.
  destruct (fold_counts hub_sizes existing_sizes games
              {| final_sizes := ∅; found_count := 0;
                 missing_count := 0; warned := [] |}) as (_ & Hm & _).
  exact Hm.
Qed.

Lemma filter_partition_length {A} (p : A → bool) (l : list A) :
  (length (List.filter p l) + length (List.filter (λ a, negb (p a)) l))%nat
  = length l.
Proof.
  induction l as [|a l IH]; [reflexivity|]. cbn.
  destruct (p a); cbn; lia.
Qed.

(** C1. Every expected id ends up with the aggregated size when the
    aggregated mapping has one, else with the size of the prior
    snapshot when that has one, else with [0]; ids that are not expected
    get no entry. [missing_count] counts the games whose id is not a key
    of the aggregated mapping, whether or not the snapshot had a size for
    them. On games a, b, c with a at 5.0 aggregated and b at 3.2 in the
    snapshot, the final mapping is a: 5.0, b: 3.2, c: 0 and two games
    are missing. *)
Theorem reconcile_precedence games hub_sizes existing_sizes :
  (∀ id,
     final_sizes (reconcile games hub_sizes existing_sizes) !! id =
     if decide (id ∈ map game_id games)
     then Some (resolved hub_sizes existing_sizes id)
     else None)
  ∧ missing_count (reconcile games hub_sizes existing_sizes)
    = length (List.filter (λ g, negb (in_hub hub_sizes g)) games)
  ∧ (let r := reconcile [Game "a"; Game "b"; Game "c"]
                {[ "a" := hundredths 500 ]}
                {[ "b" := PFloat (hundredths 320) ]} in
     final_sizes r
     = {[ "a" := PFloat (hundredths 500);
          "b" := PFloat (hundredths 320);
          "c" := PInt 0 ]}
     ∧ missing_count r = 2%nat).
Proof.
  split; [|split].
  - intros id. apply reconcile_lookup.
  - apply reconcile_missing.
  - vm_compute. split; reflexivity.
Qed.

(** C9. The two counters add up to the number of records of
    [games.json], a record with a repeated id counting once per
    occurrence, while the final mapping has one key per distinct id. The
    loop runs over the list of records, not over the set of ids: on two
    records with the same id the counters add up to 2 and the set of
    expected ids has 1 element. *)
Theorem counts_follow_records games hub_sizes existing_sizes :
  let r := reconcile games hub_sizes existing_sizes in
  (found_count r + missing_count r)%nat = length games
  ∧ size (final_sizes r) = size (expected_ids games)
  ∧ (let r2 := reconcile [Game "a"; Game "a"] hub_sizes existing_sizes in
     (found_count r2 + missing_count r2)%nat = 2%nat
     ∧ size (final_sizes r2) = 1%nat
     ∧ size (expected_ids [Game "a"; Game "a"]) = 1%nat).
Proof.
  assert (Hsum : ∀ gs,
    (found_count (reconcile gs hub_sizes existing_sizes)
     + missing_count (reconcile gs hub_sizes existing_sizes))%nat = length gs).
  { intros gs. unfold reconcile.
    destruct (fold_counts hub_sizes existing_sizes gs
                {| final_sizes := ∅; found_count := 0;
                   missing_count := 0; warned := [] |}) as (Hf & Hm & _).
    rewrite Hf, Hm. cbn. apply filter_partition_length. }
  assert (Hsize : ∀ gs,
    size (final_sizes (reconcile gs hub_sizes existing_sizes))
    = size (expected_ids gs)).
  { intros gs. rewrite <- reconcile_dom with (hub_sizes := hub_sizes)
      (existing_sizes := existing_sizes). symmetry. apply size_dom. }
  cbn zeta. split; [apply Hsum | split; [apply Hsize|]].
  split; [apply Hsum | ].
  rewrite Hsize. split; reflexivity.
Qed.

Lemma filter_none_length {A} (p : A → bool) (l : list A) :
  (∀ a, a ∈ l → p a = false) → length (List.filter p l) = 0%nat.
Proof.
  induction l as [|a l IH]; intros H; [reflexivity|]. cbn.
  rewrite (H a) by (apply elem_of_cons; by left).
  apply IH. intros b Hb. apply H, elem_of_cons. by right.
Qed.

(** C8, as the code has it. When the prior snapshot holds the ids and
    sizes of the aggregated mapping and the expected ids are exactly
    those ids, reconciling gives that mapping back and counts no missing
    game. *)
Theorem reconcile_idempotent games (hub_sizes : gmap string float)
    (Hids : expected_ids games = dom hub_sizes) :
  let r := reconcile games hub_sizes (PFloat <$> hub_sizes) in
  final_sizes r = PFloat <$> hub_sizes ∧ missing_count r = 0%nat.
Proof.
  cbn zeta. split.
  - apply map_eq. intros id.
    rewrite reconcile_lookup, lookup_fmap. unfold resolved.
    destruct (decide (id ∈ map game_id games)) as [Hin|Hin].
    + assert (Hd : id ∈ dom hub_sizes).
      { rewrite <- Hids. unfold expected_ids. by apply elem_of_list_to_set. }
      apply elem_of_dom in Hd as [s Hs]. by rewrite Hs.
    + assert (Hd : id ∉ dom hub_sizes).
      { rewrite <- Hids. unfold expected_ids. by rewrite elem_of_list_to_set. }
      apply not_elem_of_dom in Hd. by rewrite Hd.
  - rewrite reconcile_missing. apply filter_none_length. intros g Hg.
    rewrite in_hub_lookup.
    assert (Hd : game_id g ∈ dom hub_sizes).
    { rewrite <- Hids. unfold expected_ids. apply elem_of_list_to_set.
      apply list_elem_of_fmap. by exists g. }
    apply elem_of_dom in Hd as [s Hs]. by rewrite Hs.
Qed.

Lemma reconcile_idempotent_witness :
  let hub_sizes : gmap string float :=
    {[ "a" := hundredths 500; "b" := hundredths 320 ]} in
  let r := reconcile [Game "b"; Game "a"] hub_sizes (PFloat <$> hub_sizes) in
  final_sizes r = PFloat <$> hub_sizes ∧ missing_count r = 0%nat.
Proof.
  apply (reconcile_idempotent [Game "b"; Game "a"]
           {[ "a" := hundredths 500; "b" := hundredths 320 ]}).
  vm_compute. reflexivity.
Defined.

(** C8 as stated fails: the outcome also depends on the expected ids. A
    game z that [games.json] lists and the registry does not have is
    counted missing and gets the entry 0, although the aggregated
    mapping and the prior snapshot agree on every id and size. *)
Lemma matching_snapshot_with_new_game :
  let hub_sizes : gmap string float := {[ "a" := hundredths 500 ]} in
  let r := reconcile [Game "a"; Game "z"] hub_sizes (PFloat <$> hub_sizes) in
  final_sizes r = {[ "a" := PFloat (hundredths 500); "z" := PInt 0 ]}
  ∧ final_sizes r ≠ PFloat <$> hub_sizes
  ∧ missing_count r = 1%nat.
Proof.
  vm_compute. split; [reflexivity|]. split; [|reflexivity].
  intros H. discriminate H.
Qed.

(** ** Absorbing tag records *)

Lemma feqb_zero_not_positive f :
  feqb f (S754_zero false) = true → fltb (S754_zero false) f = false.
Proof. destruct f as [s|s| |s m e]; try destruct s; cbn; congruence. Qed.

Lemma eq_zero_not_positive v : eq_zero v = true → gt_zero v = Ok false.
Proof.
  unfold eq_zero, gt_zero. destruct (as_num v) as [[n|f]|]; intros H.
  - apply Z.eqb_eq in H. subst n. reflexivity.
  - by rewrite feqb_zero_not_positive.
  - discriminate.
Qed.

Lemma effective_size_images t :
  effective_size t =
  let full_size := default (PInt 0) (tag_full_size t) in
  if eq_zero full_size then
    match image_sizes t with
    | [] => Ok full_size
    | _ :: _ => rbind (sum_of (image_sizes t)) (λ s, Ok (of_num s))
    end
  else Ok full_size.
Proof.
  unfold effective_size, image_sizes. cbn zeta.
  destruct (eq_zero _); [|reflexivity].
  destruct (default [] (tag_images t)); reflexivity.
Qed.

(** When the loop body stores a size, the bytes it started from are the
    effective size in the words of the design document. *)
Lemma positive_effective_size t full_size :
  effective_size t = Ok full_size → gt_zero full_size = Ok true →
  claimed_effective_size t = Ok full_size.
Proof.
  rewrite effective_size_images. unfold claimed_effective_size. cbn zeta.
  destruct (eq_zero (default (PInt 0) (tag_full_size t))) eqn:Hz.
  - rewrite (eq_zero_not_positive _ Hz). cbn.
    unfold image_sizes at 1.
    destruct (tag_images t) as [images|]; cbn.
    + destruct images as [|img images]; cbn.
      * intros [= <-] Hpos. rewrite (eq_zero_not_positive _ Hz) in Hpos.
        discriminate.
      * intros H _. exact H.
    + intros [= <-] Hpos. rewrite (eq_zero_not_positive _ Hz) in Hpos.
      discriminate.
  - intros [= <-] Hpos. rewrite Hpos. reflexivity.
Qed.

(** C2. When the loop body stores a size for a tag record, it stores it
    under the record's name, and the size is
    [round(effective / 1024 ** 3, 2)] for the effective size of the
    record: its [full_size] when that is positive, else the sum of the
    sizes of its [images] when it has that list, else [0]. A record
    whose name is empty or missing leaves the mapping as it was,
    whatever its size; a named record whose bytes come out positive is
    stored. *)
Theorem absorb_tag_stores_rounded_gb all_tags t all_tags'
    (Habsorb : absorb_tag all_tags t = Ok all_tags') :
  (default "" (tag_name t) = "" → all_tags' = all_tags)
  ∧ (all_tags' = all_tags
     ∨ ∃ effective g,
         claimed_effective_size t = Ok effective
         ∧ gt_zero effective = Ok true
         ∧ size_gb effective = Ok g
         ∧ all_tags' = <[default "" (tag_name t) := g]> all_tags)
  ∧ (∀ full_size,
       default "" (tag_name t) ≠ "" →
       effective_size t = Ok full_size → gt_zero full_size = Ok true →
       ∃ g, size_gb full_size = Ok g
            ∧ all_tags' = <[default "" (tag_name t) := g]> all_tags).
Proof.
  unfold absorb_tag in Habsorb.
  destruct (effective_size t) as [full_size|e] eqn:Heff; [|discriminate].
  cbn in Habsorb.
  destruct (String.eqb (default "" (tag_name t)) "") eqn:Hname; cbn in Habsorb.
  - apply String.eqb_eq in Hname.
    injection Habsorb as <-. split; [done|]. split; [by left | done].
  - apply String.eqb_neq in Hname.
    destruct (gt_zero full_size) as [[|]|e] eqn:Hpos; cbn in Habsorb;
      [| injection Habsorb as <- | discriminate].
    + destruct (size_gb full_size) as [g|e] eqn:Hgb; [|discriminate].
      injection Habsorb as <-. split; [done|]. split.
      * right. exists full_size, g. split; [|done].
        by apply positive_effective_size.
      * intros full_size' _ [= <-] _. eauto.
    + split; [done|]. split; [by left|].
      intros full_size' _ [= <-] Hpos'. congruence.
Qed.

Lemma absorb_tag_stores_rounded_gb_witness :
  let t := Tag (Some "c") None
             (Some [Image (Some (PInt (1024 ^ 3))); Image None;
                    Image (Some (PInt (2 ^ 29)))]) in
  (default "" (tag_name t) = "" → {[ "c" := hundredths 150 ]} = (∅ : gmap string float))
  ∧ ({[ "c" := hundredths 150 ]} = (∅ : gmap string float)
     ∨ ∃ effective g,
         claimed_effective_size t = Ok effective
         ∧ gt_zero effective = Ok true
         ∧ size_gb effective = Ok g
         ∧ {[ "c" := hundredths 150 ]}
           = <[default "" (tag_name t) := g]> (∅ : gmap string float))
  ∧ (∀ full_size,
       default "" (tag_name t) ≠ "" →
       effective_size t = Ok full_size → gt_zero full_size = Ok true →
       ∃ g, size_gb full_size = Ok g
            ∧ {[ "c" := hundredths 150 ]}
              = <[default "" (tag_name t) := g]> (∅ : gmap string float)).
Proof.
  apply (absorb_tag_stores_rounded_gb ∅
           (Tag (Some "c") None
              (Some [Image (Some (PInt (1024 ^ 3))); Image None;
                     Image (Some (PInt (2 ^ 29)))]))).
  vm_compute. reflexivity.
Defined.

(** ** Fetching one page *)

(** [fetch_page], one case per request made. *)
Lemma fetch_page_eq server page n :
  fetch_page server page n =
  match server n page with
  | Response d => (Ok (Got d), S n, [Get page])
  | Failed =>
    match server (S n) page with
    | Response d =>
        (Ok (Got d), S (S n),
         [Get page; Print (MsgError page);
          Print (MsgRetrying 2); Sleep 2; Get page])
    | Failed =>
      match server (S (S n)) page with
      | Response d =>
          (Ok (Got d), S (S (S n)),
           [Get page; Print (MsgError page);
            Print (MsgRetrying 2); Sleep 2; Get page;
            Print (MsgRetrying 4); Sleep 4; Get page])
      | Failed =>
        match server (S (S (S n))) page with
        | Response d =>
            (Ok (Got d), S (S (S (S n))),
             [Get page; Print (MsgError page);
              Print (MsgRetrying 2); Sleep 2; Get page;
              Print (MsgRetrying 4); Sleep 4; Get page;
              Print (MsgRetrying 8); Sleep 8; Get page])
        | Failed =>
            (Ok GaveUp, S (S (S (S n))),
             [Get page; Print (MsgError page);
              Print (MsgRetrying 2); Sleep 2; Get page;
              Print (MsgRetrying 4); Sleep 4; Get page;
              Print (MsgRetrying 8); Sleep 8; Get page;
              Print (MsgFailed page)])
        end
      end
    end
  end.
Proof.
  unfold fetch_page, mbind, attempt. cbn.
  destruct (server n page); [|reflexivity].
  unfold mbind, attempt. cbn.
  destruct (server (S n) page); [|reflexivity]. cbn.
  destruct (server (S (S n)) page); [|reflexivity]. cbn.
  destruct (server (S (S (S n))) page); reflexivity.
Qed.

(** C6. When the first three requests for a page fail and the fourth
    succeeds, [fetch_page] sleeps 2, 4 and 8 seconds, in that order, one
    sleep before each retry, and returns the body of the fourth. It
    never makes more than four requests, the first and three retries,
    and when all four fail the fetch is given up. *)
Theorem backoff_sequence server page n data
    (H1 : server n page = Failed)
    (H2 : server (S n) page = Failed)
    (H3 : server (S (S n)) page = Failed)
    (H4 : server (S (S (S n))) page = Response data) :
  fetch_page server page n
  = (Ok (Got data), (n + 4)%nat,
     [Get page; Print (MsgError page);
      Print (MsgRetrying 2); Sleep 2; Get page;
      Print (MsgRetrying 4); Sleep 4; Get page;
      Print (MsgRetrying 8); Sleep 8; Get page])
  ∧ (∀ server' n',
       (length (gets (snd (fetch_page server' page n'))) <= 4)%nat)
  ∧ (∀ server',
       server' n page = Failed ∧ server' (S n) page = Failed
       ∧ server' (S (S n)) page = Failed ∧ server' (S (S (S n))) page = Failed →
       fst (fst (fetch_page server' page n)) = Ok GaveUp
       ∧ sleeps (snd (fetch_page server' page n)) = [2; 4; 8]%Q
       ∧ length (gets (snd (fetch_page server' page n))) = 4%nat).
Proof.
  split; [|split].
  - rewrite fetch_page_eq, H1, H2, H3, H4.
    replace (n + 4)%nat with (S (S (S (S n)))) by lia. reflexivity.
  - intros server' n'. rewrite fetch_page_eq.
    destruct (server' n' page); [|cbn; lia].
    destruct (server' (S n') page); [|cbn; lia].
    destruct (server' (S (S n')) page); [|cbn; lia].
    destruct (server' (S (S (S n'))) page); cbn; lia.
  - intros server' (F1 & F2 & F3 & F4).
    rewrite fetch_page_eq, F1, F2, F3, F4. cbn. done.
Qed.

Lemma backoff_sequence_witness :
  let data := Body (Some [Tag (Some "a") (Some (PInt 3221225472)) None]) None in
  let server := scripted [Failed; Failed; Failed; Response data] in
  fetch_page server 1 0%nat
  = (Ok (Got data), 4%nat,
     [Get 1; Print (MsgError 1);
      Print (MsgRetrying 2); Sleep 2; Get 1;
      Print (MsgRetrying 4); Sleep 4; Get 1;
      Print (MsgRetrying 8); Sleep 8; Get 1])
  ∧ (∀ server' n',
       (length (gets (snd (fetch_page server' 1 n'))) <= 4)%nat)
  ∧ (∀ server',
       server' 0%nat 1%nat = Failed ∧ server' 1%nat 1%nat = Failed
       ∧ server' 2%nat 1%nat = Failed ∧ server' 3%nat 1%nat = Failed →
       fst (fst (fetch_page server' 1 0%nat)) = Ok GaveUp
       ∧ sleeps (snd (fetch_page server' 1 0%nat)) = [2; 4; 8]%Q
       ∧ length (gets (snd (fetch_page server' 1 0%nat))) = 4%nat).
Proof.
  apply (backoff_sequence
           (scripted [Failed; Failed; Failed;
                      Response (Body (Some [Tag (Some "a") (Some (PInt 3221225472)) None]) None)])
           1%nat 0%nat); reflexivity.
Defined.

(** ** The crawl *)

Local Ltac outcome k :=
  exists k; eexists;
  split; [lia|]; split; [|split];
  [ | | rewrite ?Nat.add_succ_r, ?Nat.add_0_r;
        first [left; reflexivity | right; eexists; reflexivity] ];
  reflexivity.

Lemma fetch_page_outcome server page n :
  ∃ k evs, (1 <= k <= 4)%nat ∧ gets evs = repeat page k ∧ writes evs = []
    ∧ (fetch_page server page n = (Ok GaveUp, (n + k)%nat, evs)
       ∨ ∃ d, fetch_page server page n = (Ok (Got d), (n + k)%nat, evs)).
Proof.
  rewrite fetch_page_eq.
  destruct (server n page); [|outcome 1%nat].
  destruct (server (S n) page); [|outcome 2%nat].
  destruct (server (S (S n)) page); [|outcome 3%nat].
  destruct (server (S (S (S n))) page); outcome 4%nat.
Qed.

Lemma loop_body_gave_up server page data all_tags n n' evs :
  fetch_page server page n = (Ok GaveUp, n', evs) →
  loop_body server page data all_tags n = (Ok (Stop all_tags), n', evs).
Proof.
  intros H. unfold loop_body, mbind. rewrite H. cbn.
  by rewrite app_nil_r.
Qed.

Lemma loop_body_got server page data all_tags n n' evs d :
  fetch_page server page n = (Ok (Got d), n', evs) →
  loop_body server page data all_tags n =
  match default [] (results d) with
  | [] => (Ok (Stop all_tags), n', evs)
  | _ :: _ =>
      match absorb all_tags (default [] (results d)) with
      | Ok all_tags' =>
          (Ok (if negb (truthy (default PNone (next d)))
               then Stop all_tags' else Next d all_tags'),
           n',
           evs ++ [Print (MsgPage page (length (default [] (results d)))
                            (size all_tags'))])
      | Raise e => (Raise e, n', evs)
      end
  end.
Proof.
  intros H. unfold loop_body, mbind. rewrite H. cbn.
  destruct (default [] (results d)) as [|t ts]; cbn.
  - by rewrite app_nil_r.
  - unfold lift.
    destruct (absorb_tag all_tags t) as [m|e]; cbn; [|by rewrite ?app_nil_r].
    destruct (absorb m ts) as [m'|e]; cbn; [|by rewrite ?app_nil_r].
    destruct (negb (truthy (default PNone (next d)))); cbn;
      by rewrite ?app_nil_r.
Qed.

Lemma crawl_S server fuel page data all_tags n :
  crawl server (S fuel) page data all_tags n =
  match loop_body server page data all_tags n with
  | (Ok (Stop m), n', evs) => (Some (Ok m), n', evs)
  | (Ok (Next d m), n', evs) =>
      match crawl server fuel (S page) (Some d) m n' with
      | (r, n'', evs') => (r, n'', evs ++ Sleep (1 # 2) :: evs')
      end
  | (Raise e, n', evs) => (Some (Raise e), n', evs)
  end.
Proof.
  cbn [crawl]. unfold fbind, run.
  destruct (loop_body server page data all_tags n) as [[[t|e] n'] evs];
    [|reflexivity].
  destruct t as [m|d m]; cbn.
  - by rewrite app_nil_r.
  - destruct (crawl server fuel (S page) (Some d) m n') as [[r n''] evs'].
    reflexivity.
Qed.

Lemma gets_app evs evs' : gets (evs ++ evs') = gets evs ++ gets evs'.
Proof. apply omap_app. Qed.

Lemma writes_app evs evs' : writes (evs ++ evs') = writes evs ++ writes evs'.
Proof. apply omap_app. Qed.

Lemma gets_sleep secs evs : gets (Sleep secs :: evs) = gets evs.
Proof. reflexivity. Qed.

Lemma writes_sleep secs evs : writes (Sleep secs :: evs) = writes evs.
Proof. reflexivity. Qed.

(** One turn of the loop requests its own page only, one to four times,
    and writes no file. *)
Lemma loop_body_events server page data all_tags n :
  ∃ k, (1 <= k <= 4)%nat
    ∧ gets (snd (loop_body server page data all_tags n)) = repeat page k
    ∧ writes (snd (loop_body server page data all_tags n)) = [].
Proof.
  destruct (fetch_page_outcome server page n)
    as (k & evs & Hk & Hg & Hw & [Hf|[d Hf]]); exists k; (split; [exact Hk|]).
  - rewrite (loop_body_gave_up _ _ _ _ _ _ _ Hf). done.
  - rewrite (loop_body_got _ _ _ _ _ _ _ _ Hf).
    destruct (default [] (results d)) as [|t ts]; [done|].
    destruct (absorb all_tags (t :: ts)); [|done]. cbn [snd].
    rewrite gets_app, writes_app, Hg, Hw. cbn. by rewrite app_nil_r.
Qed.

Lemma in_page_order_repeat page k pages :
  in_page_order page (repeat page k ++ pages) = in_page_order page pages.
Proof.
  induction k as [|k IH]; [reflexivity|]. cbn.
  by rewrite Nat.eqb_refl, IH.
Qed.

(** The requests of a crawl started at [page]: none, or first [page]
    itself and then pages in order. No file is written. *)
Lemma crawl_events server fuel : ∀ page data all_tags n,
  match gets (snd (crawl server fuel page data all_tags n)) with
  | [] => True
  | q :: rest => q = page ∧ in_page_order page rest = true
  end
  ∧ writes (snd (crawl server fuel page data all_tags n)) = [].
Proof.
  induction fuel as [|fuel IH]; intros page data all_tags n; [done|].
  rewrite crawl_S.
  destruct (loop_body_events server page data all_tags n) as (k & Hk & Hg & Hw).
  destruct (loop_body server page data all_tags n) as [[[t|e] n'] evs];
    cbn [snd] in Hg, Hw.
  - destruct t as [m|d m]; cbn [snd].
    + rewrite Hg, Hw. destruct k as [|k]; [lia|]. cbn.
      split; [|done]. split; [done|].
      by rewrite <- (app_nil_r (repeat page k)), in_page_order_repeat.
    + specialize (IH (S page) (Some d) m n').
      destruct (crawl server fuel (S page) (Some d) m n') as [[r n''] evs'].
      cbn [snd] in IH |- *. destruct IH as [IHg IHw].
      rewrite gets_app, writes_app, gets_sleep, writes_sleep, Hg, Hw.
      split; [|by rewrite IHw].
      destruct k as [|k]; [lia|]. cbn [repeat app].
      split; [done|]. rewrite in_page_order_repeat.
      destruct (gets evs') as [|q rest]; [done|]. destruct IHg as [-> IHg].
      cbn. by rewrite Nat.eqb_refl, orb_true_r, IHg.
  - cbn [snd]. rewrite Hg, Hw. destruct k as [|k]; [lia|]. cbn.
    split; [|done]. split; [done|].
    by rewrite <- (app_nil_r (repeat page k)), in_page_order_repeat.
Qed.

Lemma fetch_all_tags_eq server fuel n :
  fetch_all_tags server fuel n =
  match crawl server fuel 1 None ∅ n with
  | (r, n', evs) => (r, n', Print MsgFetching :: evs)
  end.
Proof.
  unfold fetch_all_tags, fbind, run, emit. cbn.
  by destruct (crawl server fuel 1 None ∅ n) as [[r n'] evs].
Qed.

Lemma fetch_all_tags_events server fuel n :
  pages_in_order (gets (snd (fetch_all_tags server fuel n))) = true
  ∧ writes (snd (fetch_all_tags server fuel n)) = [].
Proof.
  rewrite fetch_all_tags_eq.
  destruct (crawl_events server fuel 1 None ∅ n) as [Hg Hw].
  destruct (crawl server fuel 1 None ∅ n) as [[r n'] evs]. cbn [snd] in *.
  split; [|exact Hw].
  change (gets (Print MsgFetching :: evs)) with (gets evs).
  destruct (gets evs) as [|q rest]; [done|]. destruct Hg as [-> Hg].
  cbn. exact Hg.
Qed.

Lemma stops_crawl server fuel page data all_tags n m n' evs :
  stops server page all_tags n m n' evs →
  crawl server (S fuel) page data all_tags n = (Some (Ok m), n', evs).
Proof.
  intros Hstop. rewrite crawl_S. destruct Hstop as [n' evs Hf|d n' evs Hf Hr|d n' evs m Hf Hr Ha Hn].
  - by rewrite (loop_body_gave_up _ _ _ _ _ _ _ Hf).
  - by rewrite (loop_body_got _ _ _ _ _ _ _ _ Hf), Hr.
  - rewrite (loop_body_got _ _ _ _ _ _ _ _ Hf), Ha, Hn.
    destruct (default [] (results d)); done.
Qed.

Lemma stops_gets server page all_tags n m n' evs :
  stops server page all_tags n m n' evs →
  Forall (λ q, q = page) (gets evs).
Proof.
  intros Hstop.
  assert (Hfetch : ∃ f evs0, fetch_page server page n = (Ok f, n', evs0)
                             ∧ gets evs = gets evs0).
  { destruct Hstop; eauto.
    eexists _, _. split; [eassumption|]. rewrite gets_app. cbn.
    by rewrite app_nil_r. }
  destruct Hfetch as (f & evs0 & Hf & ->).
  destruct (fetch_page_outcome server page n)
    as (k & evs1 & _ & Hg & _ & [Hf'|[d Hf']]);
    rewrite Hf in Hf'; injection Hf' as _ _ <-; rewrite Hg;
    clear; induction k; constructor; auto.
Qed.

Lemma no_next_gets server n d n1 evs1 page1 data1 tags1 fuel1 :
  fetch_page server page1 n = (Ok (Got d), n1, evs1) →
  truthy (default PNone (next d)) = false →
  Forall (λ q, q = page1)
    (gets (snd (crawl server (S fuel1) page1 data1 tags1 n))).
Proof.
  intros Hf Hnext. rewrite crawl_S.
  destruct (loop_body_events server page1 data1 tags1 n) as (k & _ & Hg & _).
  rewrite (loop_body_got _ _ _ _ _ _ _ _ Hf), Hnext in Hg |- *.
  assert (Hrep : Forall (λ q, q = page1) (repeat page1 k))
    by (clear; induction k; constructor; auto).
  destruct (default [] (results d)) as [|t ts];
    [cbn in *; by rewrite Hg|].
  destruct (absorb tags1 (t :: ts)); cbn in *; by rewrite Hg.
Qed.

(** C5. When the fetch of a page is given up after the retries, or its
    body has no results, or its body is absorbed and carries no truthy
    [next], the crawl returns the mapping aggregated so far and the
    only page requested in that turn is that page: none is made for the
    page after it. No request for another page follows a falsy [next]
    either when absorbing the page raises. An empty [results] on page 1
    returns the empty mapping after one request. In every crawl the
    requests go through the pages in order from page 1. *)
Theorem crawl_stops server fuel page data all_tags n m n' evs
    (Hstop : stops server page all_tags n m n' evs) :
  crawl server (S fuel) page data all_tags n = (Some (Ok m), n', evs)
  ∧ Forall (λ q, q = page) (gets evs)
  ∧ (∀ d n0 n1 evs1 page1 data1 tags1 fuel1,
       fetch_page server page1 n0 = (Ok (Got d), n1, evs1) →
       truthy (default PNone (next d)) = false →
       Forall (λ q, q = page1)
         (gets (snd (crawl server (S fuel1) page1 data1 tags1 n0))))
  ∧ (∀ d n0,
       server n0 1%nat = Response d → default [] (results d) = [] →
       fetch_all_tags server (S fuel) n0
       = (Some (Ok ∅), S n0, [Print MsgFetching; Get 1]))
  ∧ (∀ fuel0 n0,
       pages_in_order (gets (snd (fetch_all_tags server fuel0 n0))) = true).
Proof.
  split; [by apply stops_crawl|]. split; [by eapply stops_gets|].
  split; [intros d n0 n1 evs1 page1 data1 tags1 fuel1; apply no_next_gets|].
  split.
  - intros d n0 H1 Hd. rewrite fetch_all_tags_eq.
    rewrite (stops_crawl server fuel 1 None ∅ n0 ∅ (S n0) [Get 1]); [done|].
    apply (exhausted_stopped server 1 ∅ n0 d); [|exact Hd].
    rewrite fetch_page_eq, H1. reflexivity.
  - intros fuel0 n0. apply fetch_all_tags_events.
Qed.

Lemma crawl_stops_witness :
  let data := Body (Some [Tag (Some "a") (Some (PInt 3221225472)) None]) None in
  let server := scripted [Failed; Response data] in
  let evs := [Get 1; Print (MsgError 1); Print (MsgRetrying 2); Sleep 2;
              Get 1; Print (MsgPage 1 1 1)] in
  crawl server 1 1 None ∅ 0%nat
  = (Some (Ok {[ "a" := hundredths 300 ]}), 2%nat, evs)
  ∧ Forall (λ q, q = 1%nat) (gets evs)
  ∧ (∀ d n0 n1 evs1 page1 data1 tags1 fuel1,
       fetch_page server page1 n0 = (Ok (Got d), n1, evs1) →
       truthy (default PNone (next d)) = false →
       Forall (λ q, q = page1)
         (gets (snd (crawl server (S fuel1) page1 data1 tags1 n0))))
  ∧ (∀ d n0,
       server n0 1%nat = Response d → default [] (results d) = [] →
       fetch_all_tags server 1 n0
       = (Some (Ok ∅), S n0, [Print MsgFetching; Get 1]))
  ∧ (∀ fuel0 n0,
       pages_in_order (gets (snd (fetch_all_tags server fuel0 n0))) = true).
Proof.
  apply (crawl_stops
           (scripted [Failed;
                      Response (Body (Some [Tag (Some "a") (Some (PInt 3221225472)) None]) None)])
           0 1 None ∅ 0 {[ "a" := hundredths 300 ]} 2).
  refine (no_next_stopped _ 1 ∅ 0
            (Body (Some [Tag (Some "a") (Some (PInt 3221225472)) None]) None)
            2
            [Get 1; Print (MsgError 1); Print (MsgRetrying 2); Sleep 2; Get 1]
            {[ "a" := hundredths 300 ]} _ _ _ _).
  - reflexivity.
  - discriminate.
  - vm_compute. reflexivity.
  - reflexivity.
Defined.

(** ** What the aggregated mapping holds *)

Lemma absorb_tag_from_positive_bytes all_tags t all_tags' :
  from_positive_bytes all_tags → absorb_tag all_tags t = Ok all_tags' →
  from_positive_bytes all_tags'.
Proof.
  intros Hinv Habsorb. unfold absorb_tag in Habsorb.
  destruct (effective_size t) as [full_size|e]; [|discriminate].
  cbn in Habsorb.
  destruct (String.eqb (default "" (tag_name t)) ""); cbn in Habsorb;
    [by injection Habsorb as <-|].
  destruct (gt_zero full_size) as [[|]|e] eqn:Hpos; cbn in Habsorb;
    [|by injection Habsorb as <-|discriminate].
  destruct (size_gb full_size) as [g|e] eqn:Hgb; [|discriminate].
  injection Habsorb as <-. intros name g' Hlook.
  destruct (decide (default "" (tag_name t) = name)) as [<-|Hne].
  - rewrite lookup_insert_eq in Hlook. injection Hlook as <-. eauto.
  - rewrite lookup_insert_ne in Hlook by done. eauto.
Qed.

Lemma absorb_from_positive_bytes tags : ∀ all_tags all_tags',
  from_positive_bytes all_tags → absorb all_tags tags = Ok all_tags' →
  from_positive_bytes all_tags'.
Proof.
  induction tags as [|t tags IH]; intros all_tags all_tags' Hinv Habsorb;
    cbn in Habsorb.
  - by injection Habsorb as <-.
  - destruct (absorb_tag all_tags t) as [m|e] eqn:Ht; [|discriminate].
    cbn in Habsorb. eapply IH; [|exact Habsorb].
    by eapply absorb_tag_from_positive_bytes.
Qed.

Lemma loop_body_from_positive_bytes server page data all_tags n :
  from_positive_bytes all_tags →
  match fst (fst (loop_body server page data all_tags n)) with
  | Ok (Stop m) | Ok (Next _ m) => from_positive_bytes m
  | Raise _ => True
  end.
Proof.
  intros Hinv.
  destruct (fetch_page_outcome server page n)
    as (k & evs & _ & _ & _ & [Hf|[d Hf]]).
  - by rewrite (loop_body_gave_up _ _ _ _ _ _ _ Hf).
  - rewrite (loop_body_got _ _ _ _ _ _ _ _ Hf).
    destruct (default [] (results d)) as [|t ts]; [done|].
    destruct (absorb all_tags (t :: ts)) as [m|e] eqn:Ha; [|done]. cbn.
    pose proof (absorb_from_positive_bytes _ _ _ Hinv Ha).
    by destruct (negb (truthy (default PNone (next d)))).
Qed.

Lemma crawl_from_positive_bytes server fuel : ∀ page data all_tags n m,
  from_positive_bytes all_tags →
  fst (fst (crawl server fuel page data all_tags n)) = Some (Ok m) →
  from_positive_bytes m.
Proof.
  induction fuel as [|fuel IH]; intros page data all_tags n m Hinv Hrun;
    [discriminate|].
  rewrite crawl_S in Hrun.
  pose proof (loop_body_from_positive_bytes server page data all_tags n Hinv)
    as Hturn.
  destruct (loop_body server page data all_tags n) as [[[t|e] n'] evs];
    cbn in Hturn; [|discriminate].
  destruct t as [m'|d m'].
  - cbn in Hrun. by injection Hrun as <-.
  - specialize (IH (S page) (Some d) m' n' m Hturn).
    destruct (crawl server fuel (S page) (Some d) m' n') as [[r n''] evs'].
    by apply IH.
Qed.

Lemma zero_size_not_stored all_tags t full_size :
  effective_size t = Ok full_size → eq_zero full_size = true →
  absorb_tag all_tags t = Ok all_tags.
Proof.
  intros Heff Hz. unfold absorb_tag. rewrite Heff. cbn.
  rewrite (eq_zero_not_positive _ Hz). cbn.
  by destruct (negb (String.eqb (default "" (tag_name t)) "")).
Qed.

(** C4, as the code has it. A record whose effective size is 0 leaves
    the aggregated mapping as it was; every size the aggregated mapping
    holds is [round(s / 1024 ** 3, 2)] for a number of bytes [s > 0].
    The guard is on the bytes, before the rounding. *)
Theorem stored_sizes_from_positive_bytes server fuel n all_tags n' evs
    (Hrun : fetch_all_tags server fuel n = (Some (Ok all_tags), n', evs)) :
  from_positive_bytes all_tags
  ∧ (∀ t m full_size,
       effective_size t = Ok full_size → eq_zero full_size = true →
       absorb_tag m t = Ok m).
Proof.
  split; [|intros t m full_size; apply zero_size_not_stored].
  rewrite fetch_all_tags_eq in Hrun.
  apply (crawl_from_positive_bytes server fuel 1 None ∅ n); [done|].
  destruct (crawl server fuel 1 None ∅ n) as [[r n''] evs'].
  by injection Hrun as -> _ _.
Qed.

Lemma stored_sizes_from_positive_bytes_witness :
  from_positive_bytes {[ "a" := hundredths 300 ]}
  ∧ (∀ t m full_size,
       effective_size t = Ok full_size → eq_zero full_size = true →
       absorb_tag m t = Ok m).
Proof.
  apply (stored_sizes_from_positive_bytes
           (scripted [Response (Body (Some [Tag (Some "a") (Some (PInt 3221225472)) None;
                                            Tag (Some "b") (Some (PInt 0)) None]) None)])
           1 0 {[ "a" := hundredths 300 ]} 1
           [Print MsgFetching; Get 1; Print (MsgPage 1 2 1)]).
  vm_compute. reflexivity.
Defined.

(** C4 as stated fails: a tag of 1 byte passes the guard on the bytes
    and is stored with the size 0.0, which equals 0. *)
Lemma tiny_tag_stored_as_zero :
  fetch_all_tags
    (scripted [Response (Body (Some [Tag (Some "tiny") (Some (PInt 1)) None]) None)])
    1 0%nat
  = (Some (Ok {[ "tiny" := S754_zero false ]}), 1%nat,
     [Print MsgFetching; Get 1; Print (MsgPage 1 1 1)])
  ∧ ({[ "tiny" := S754_zero false ]} : gmap string float) !! "tiny"
    = Some (S754_zero false)
  ∧ eq_zero (PFloat (S754_zero false)) = true.
Proof. vm_compute. repeat split; reflexivity. Qed.

(** ** Absorbing raises nothing on sizes in range *)

(** The guards of [float_of_int] and [truediv] sit where the rounding of
    [SpecFloat] reaches the infinity. *)
Example float_limit_is_where_rounding_overflows :
  nearest_float (float_limit - 1) = SFmax_float 53 1024
  ∧ nearest_float float_limit = S754_infinity false
  ∧ nearest_quotient (float_limit * 1024 ^ 3 - 1) (1024 ^ 3) = SFmax_float 53 1024
  ∧ nearest_quotient (float_limit * 1024 ^ 3) (1024 ^ 3) = S754_infinity false.
Proof. vm_compute. repeat split; reflexivity. Qed.

(** The conversion of the design document: 3,221,225,472 bytes are 3.00
    GB; and [round] takes halves to the even digit. *)
Example three_gigabytes :
  size_gb (PInt 3221225472) = Ok (hundredths 300)
  ∧ size_gb (PInt (2 ^ 27)) = Ok (hundredths 12).
Proof. vm_compute. split; reflexivity. Qed.

Lemma float_limit_pos : 0 < float_limit.
Proof. reflexivity. Qed.

Lemma int_mass_nonneg vs : 0 <= int_mass vs.
Proof.
  induction vs as [|v vs IH]; cbn; [lia|].
  destruct v; cbn; lia.
Qed.

Lemma float_of_int_in_range n :
  Z.abs n < float_limit → float_of_int n = Ok (nearest_float n).
Proof.
  intros H. unfold float_of_int.
  by rewrite (proj2 (Z.ltb_lt _ _) H).
Qed.

Lemma sum_from_in_range vs : ∀ acc,
  forallb is_number vs = true → has_room acc (int_mass vs) →
  ∃ s, sum_from acc vs = Ok s ∧ has_room s 0.
Proof.
  induction vs as [|v vs IH]; intros acc Hnum Hroom; cbn in *.
  - eauto.
  - apply andb_true_iff in Hnum as [Hv Hvs].
    pose proof (int_mass_nonneg vs) as Hmass.
    destruct v as [| |b|g| | |]; try discriminate; cbn in *.
    + destruct acc as [a|f]; cbn in *.
      * apply IH; [done|]. cbn. lia.
      * rewrite float_of_int_in_range by lia. cbn.
        apply IH; [done|]. cbn. lia.
    + destruct acc as [a|f]; cbn in *.
      * rewrite float_of_int_in_range by lia. cbn.
        apply IH; [done|]. cbn. lia.
      * apply IH; [done|]. cbn. lia.
Qed.

Lemma image_sizes_numbers t :
  sizes_typed t = true → forallb is_number (image_sizes t) = true.
Proof.
  unfold sizes_typed, image_sizes. intros H.
  apply andb_true_iff in H as [_ H].
  induction (default [] (tag_images t)) as [|img imgs IH]; [reflexivity|].
  cbn in *. apply andb_true_iff in H as [Himg Himgs].
  rewrite IH by done. rewrite andb_true_r.
  destruct (img_size img) as [[]|]; done.
Qed.

Lemma has_room_divides x : has_room x 0 → divides x.
Proof.
  destruct x as [a|f]; cbn; [|done].
  pose proof float_limit_pos as Hpos. intros Hroom. lia.
Qed.

Lemma effective_size_in_range t :
  sizes_typed t = true → sizes_in_float_range t = true →
  ∃ x, effective_size t = Ok (of_num x) ∧ divides x.
Proof.
  intros Htyped Hrange.
  pose proof (image_sizes_numbers t Htyped) as Hnum.
  unfold sizes_typed in Htyped. apply andb_true_iff in Htyped as [Hfull _].
  unfold sizes_in_float_range in Hrange.
  apply andb_true_iff in Hrange as [Hmag Hmass].
  apply Z.ltb_lt in Hmass.
  assert (Hsum : ∃ s, sum_of (image_sizes t) = Ok s ∧ divides s).
  { destruct (sum_from_in_range (image_sizes t) (NInt 0)) as (s & Hs & Hroom);
      [done | cbn; lia |].
    exists s. split; [exact Hs | by apply has_room_divides]. }
  destruct Hsum as (s & Hs & Hdiv).
  assert (Hzero : divides (NInt 0)).
  { apply has_room_divides. cbn. apply float_limit_pos. }
  rewrite effective_size_images. cbn zeta.
  destruct (tag_full_size t) as [[| |n| | | |]|]; try discriminate; cbn in *.
  - destruct (n =? 0) eqn:Hn.
    + apply Z.eqb_eq in Hn. subst n.
      destruct (image_sizes t) as [|v vs].
      * by exists (NInt 0).
      * rewrite Hs. cbn. eauto.
    + exists (NInt n). split; [done|]. cbn. by apply Z.ltb_lt.
  - destruct (image_sizes t) as [|v vs].
    + by exists (NInt 0).
    + rewrite Hs. cbn. eauto.
Qed.

Lemma truediv_in_range a d :
  0 < a < float_limit * d → truediv (NInt a) d = Ok (nearest_quotient a d).
Proof.
  intros Ha. unfold truediv.
  assert (Hguard : (Z.abs a <? float_limit * d) = true)
    by (apply Z.ltb_lt; lia).
  by rewrite Hguard.
Qed.

Lemma size_gb_in_range x :
  gt_zero (of_num x) = Ok true → divides x → ∃ g, size_gb (of_num x) = Ok g.
Proof.
  intros Hpos Hdiv. unfold size_gb. destruct x as [a|f]; cbn [of_num as_num].
  - cbn in Hpos, Hdiv. injection Hpos as Hpos. apply Z.ltb_lt in Hpos.
    rewrite truediv_in_range by lia. cbn. eauto.
  - cbn. eauto.
Qed.

Lemma absorb_tag_in_range all_tags t :
  sizes_typed t = true → sizes_in_float_range t = true →
  ∃ all_tags', absorb_tag all_tags t = Ok all_tags'.
Proof.
  intros Htyped Hrange.
  destruct (effective_size_in_range t Htyped Hrange) as (x & Heff & Hdiv).
  unfold absorb_tag. rewrite Heff. cbn.
  destruct (negb (String.eqb (default "" (tag_name t)) "")); [|eauto].
  assert (Hpos : ∃ b, gt_zero (of_num x) = Ok b) by (destruct x; cbn; eauto).
  destruct Hpos as [[|] Hpos]; rewrite Hpos; cbn; [|eauto].
  destruct (size_gb_in_range x Hpos Hdiv) as [g Hg].
  rewrite Hg. cbn. eauto.
Qed.

Lemma absorb_in_range tags : ∀ all_tags,
  forallb sizes_typed tags = true →
  forallb sizes_in_float_range tags = true →
  ∃ all_tags', absorb all_tags tags = Ok all_tags'.
Proof.
  induction tags as [|t tags IH]; intros all_tags Htyped Hrange; cbn in *.
  - eauto.
  - apply andb_true_iff in Htyped as [Ht Hts].
    apply andb_true_iff in Hrange as [Hr Hrs].
    destruct (absorb_tag_in_range all_tags t Ht Hr) as [m ->]. cbn.
    by apply IH.
Qed.

Lemma effective_size_fallback t :
  tag_full_size t = None ∨ tag_full_size t = Some (PInt 0) →
  effective_size t = summed_images t.
Proof.
  intros H. rewrite effective_size_images. unfold summed_images.
  assert (Hfull : default (PInt 0) (tag_full_size t) = PInt 0)
    by (destruct H as [-> | ->]; reflexivity).
  rewrite Hfull. cbn. by destruct (image_sizes t).
Qed.

Lemma effective_size_no_fallback t v :
  tag_full_size t = Some v → eq_zero v = false → effective_size t = Ok v.
Proof.
  intros Hfull Hz. rewrite effective_size_images, Hfull. cbn.
  by rewrite Hz.
Qed.

(** C10, as the code has it. Absorbing the tag records of a page raises
    nothing when every [full_size] is absent or an [int], every [size]
    of an [images] entry is absent or a number, and the integers stay in
    the range of floats: each [full_size] is below
    [(2^1024 - 2^970) * 1024^3], and for each record the sum of the
    magnitudes of its integer [size]s is below [2^1024 - 2^970].
    The sum of the [images] sizes is taken when [full_size] is absent or
    0, and for no other value: a [full_size] that does not equal 0 is
    the effective size as it is. *)
Theorem absorb_raises_nothing_in_range tags all_tags
    (Htyped : forallb sizes_typed tags = true)
    (Hrange : forallb sizes_in_float_range tags = true) :
  (∃ all_tags', absorb all_tags tags = Ok all_tags')
  ∧ (∀ t, tag_full_size t = None ∨ tag_full_size t = Some (PInt 0) →
          effective_size t = summed_images t)
  ∧ (∀ t v, tag_full_size t = Some v → eq_zero v = false →
            effective_size t = Ok v)
  ∧ (∀ n, eq_zero (PInt n) = false ↔ n ≠ 0).
Proof.
  split; [by apply absorb_in_range|].
  split; [apply effective_size_fallback|].
  split; [apply effective_size_no_fallback|].
  intros n. cbn. apply Z.eqb_neq.
Qed.

Lemma absorb_raises_nothing_in_range_witness :
  let tags :=
    [Tag (Some "c") None
       (Some [Image (Some (PInt (1024 ^ 3))); Image None;
              Image (Some (PFloat (hundredths 150)))]);
     Tag (Some "a") (Some (PInt 3221225472)) None;
     Tag None (Some (PInt (-5))) (Some [Image (Some (PInt 7))])] in
  (∃ all_tags', absorb ∅ tags = Ok all_tags')
  ∧ (∀ t, tag_full_size t = None ∨ tag_full_size t = Some (PInt 0) →
          effective_size t = summed_images t)
  ∧ (∀ t v, tag_full_size t = Some v → eq_zero v = false →
            effective_size t = Ok v)
  ∧ (∀ n, eq_zero (PInt n) = false ↔ n ≠ 0).
Proof.
  apply (absorb_raises_nothing_in_range
           [Tag (Some "c") None
              (Some [Image (Some (PInt (1024 ^ 3))); Image None;
                     Image (Some (PFloat (hundredths 150)))]);
            Tag (Some "a") (Some (PInt 3221225472)) None;
            Tag None (Some (PInt (-5))) (Some [Image (Some (PInt 7))])]
           ∅); vm_compute; reflexivity.
Defined.

(** C10 as stated fails: an [int] too large for a float is still an
    [int], and dividing it by [1024 ** 3] raises [OverflowError]. So
    does adding it to a float in the sum of the [images] sizes. *)
Lemma huge_size_overflows :
  let t := Tag (Some "big") (Some (PInt (2 ^ 1054))) None in
  let u := Tag (Some "big") None
             (Some [Image (Some (PFloat (hundredths 150)));
                    Image (Some (PInt (2 ^ 1024)))]) in
  sizes_typed t = true ∧ absorb ∅ [t] = Raise OverflowError
  ∧ sizes_typed u = true ∧ absorb ∅ [u] = Raise OverflowError.
Proof. vm_compute. repeat split; reflexivity. Qed.

(** ** The whole run *)

(** [main], by how the crawl ends and whether [games.json] was there. *)
Lemma main_eq server fuel fs n :
  main server fuel fs n =
  match fetch_all_tags server fuel n with
  | (Some (Ok hub_sizes), n', evs) =>
      match games_json fs with
      | Some games =>
          let r := reconcile games hub_sizes (default ∅ (image_sizes_json fs)) in
          (Some (Ok tt), n',
           Print MsgBanner :: Print (MsgFound (size (expected_ids games))) :: evs
           ++ Print (MsgFetched (size hub_sizes))
              :: map (λ id, Print (MsgTagMissing id)) (warned r)
           ++ [WriteSizes (final_sizes r);
               Print (MsgSummary (length games) (found_count r) (missing_count r))])
      | None =>
          (Some (Raise UnboundLocalError), n',
           Print MsgBanner :: Print MsgGamesNotFound :: evs
           ++ [Print (MsgFetched (size hub_sizes))])
      end
  | (r, n', evs) =>
      (match r with Some (Raise e) => Some (Raise e) | _ => None end, n',
       Print MsgBanner
       :: Print (match games_json fs with
                 | Some games => MsgFound (size (expected_ids games))
                 | None => MsgGamesNotFound
                 end) :: evs)
  end.
Proof.
  unfold main, fbind, run, emit, lift.
  destruct (games_json fs) as [games|]; cbn -[fetch_all_tags];
    destruct (fetch_all_tags server fuel n) as [[[[hub_sizes|e]|] n'] evs];
    cbn; rewrite ?app_nil_r; reflexivity.
Qed.

Lemma loop_body_first server page data all_tags n :
  ∃ rest, snd (loop_body server page data all_tags n) = Get page :: rest.
Proof.
  assert (Hfetch : ∃ rest, snd (fetch_page server page n) = Get page :: rest).
  { rewrite fetch_page_eq.
    destruct (server n page); [|cbn; eauto].
    destruct (server (S n) page); [|cbn; eauto].
    destruct (server (S (S n)) page); [|cbn; eauto].
    destruct (server (S (S (S n))) page); cbn; eauto. }
  destruct Hfetch as [rest Hrest].
  destruct (fetch_page_outcome server page n)
    as (k & evs & _ & _ & _ & [Hf|[d Hf]]); rewrite Hf in Hrest;
    cbn in Hrest; subst evs.
  - rewrite (loop_body_gave_up _ _ _ _ _ _ _ Hf). cbn. eauto.
  - rewrite (loop_body_got _ _ _ _ _ _ _ _ Hf).
    destruct (default [] (results d)) as [|t ts]; [cbn; eauto|].
    destruct (absorb all_tags (t :: ts)); cbn; eauto.
Qed.

Lemma fetch_all_tags_first server fuel n :
  ∃ rest,
    snd (fetch_all_tags server (S fuel) n) = Print MsgFetching :: Get 1 :: rest.
Proof.
  rewrite fetch_all_tags_eq, crawl_S.
  destruct (loop_body_first server 1 None ∅ n) as [rest Hrest].
  destruct (loop_body server 1 None ∅ n) as [[[t|e] n'] evs];
    cbn in Hrest; subst evs; [|cbn; eauto].
  destruct t as [m|d m]; [cbn; eauto|].
  destruct (crawl server fuel 2 (Some d) m n') as [[r n''] evs'].
  cbn. eauto.
Qed.

(** C7, as the code has it. When [games.json] is missing the run prints
    a warning and goes on: the crawl starts and page 1 is requested. The
    process does not end at the warning. *)
Theorem missing_games_file_warns_and_crawls server fuel fs n
    (Hmissing : games_json fs = None) :
  ∃ rest,
    snd (main server (S fuel) fs n)
    = Print MsgBanner :: Print MsgGamesNotFound
      :: Print MsgFetching :: Get 1 :: rest.
Proof.
  rewrite main_eq, Hmissing.
  destruct (fetch_all_tags_first server fuel n) as [rest Hrest].
  destruct (fetch_all_tags server (S fuel) n) as [[[[hub_sizes|e]|] n'] evs];
    cbn in Hrest; subst evs; cbn; eauto.
Qed.

Lemma missing_games_file_warns_and_crawls_witness :
  ∃ rest,
    snd (main (scripted [Failed; Response (Body None None)]) 1
           (Files None (Some {[ "b" := PFloat (hundredths 320) ]})) 0%nat)
    = Print MsgBanner :: Print MsgGamesNotFound
      :: Print MsgFetching :: Get 1 :: rest.
Proof.
  apply (missing_games_file_warns_and_crawls
           (scripted [Failed; Response (Body None None)]) 0
           (Files None (Some {[ "b" := PFloat (hundredths 320) ]})) 0).
  reflexivity.
Defined.

(** C7 as stated fails: without [games.json] the process does not end
    when the warning is printed. Here it requests page 1, fails, sleeps
    two seconds and requests it again before anything ends the run. *)
Lemma missing_games_file_run :
  main (scripted [Failed; Response (Body None None)]) 1
    (Files None (Some {[ "b" := PFloat (hundredths 320) ]})) 0%nat
  = (Some (Raise UnboundLocalError), 2%nat,
     [Print MsgBanner; Print MsgGamesNotFound; Print MsgFetching;
      Get 1; Print (MsgError 1); Print (MsgRetrying 2); Sleep 2; Get 1;
      Print (MsgFetched 0)]).
Proof. vm_compute. reflexivity. Qed.

Lemma writes_print msg evs : writes (Print msg :: evs) = writes evs.
Proof. reflexivity. Qed.

Lemma writes_warnings ids :
  writes (map (λ id, Print (MsgTagMissing id)) ids) = [].
Proof. induction ids; [reflexivity | assumption]. Qed.

(** What [main] writes is the final mapping of the reconciliation, and
    it writes only when [games.json] was there and the crawl returned. *)
Lemma main_writes server fuel fs n m :
  m ∈ writes (snd (main server fuel fs n)) →
  ∃ games hub_sizes,
    games_json fs = Some games
    ∧ fst (fst (fetch_all_tags server fuel n)) = Some (Ok hub_sizes)
    ∧ m = final_sizes (reconcile games hub_sizes (default ∅ (image_sizes_json fs))).
Proof.
  rewrite main_eq.
  destruct (fetch_all_tags_events server fuel n) as [_ Hw].
  destruct (fetch_all_tags server fuel n) as [[[[hub_sizes|e]|] n'] evs];
    cbn [fst snd] in *.
  - destruct (games_json fs) as [games|]; cbn [snd].
    + rewrite !writes_print, writes_app, writes_print, writes_app, Hw,
        writes_warnings.
      cbn. intros Hm. apply list_elem_of_singleton in Hm. eauto.
    + rewrite !writes_print, writes_app, Hw. cbn.
      intros Hm. by apply elem_of_nil in Hm.
  - rewrite !writes_print, Hw. intros Hm. by apply elem_of_nil in Hm.
  - rewrite !writes_print, Hw. intros Hm. by apply elem_of_nil in Hm.
Qed.

(** Without [games.json] no run writes [image-sizes.json] or ends
    normally: [games] is unbound when line 118 is reached. *)
Lemma main_without_games server fuel fs n :
  games_json fs = None →
  writes (snd (main server fuel fs n)) = []
  ∧ fst (fst (main server fuel fs n)) ≠ Some (Ok tt).
Proof.
  intros Hmissing. split.
  - destruct (writes (snd (main server fuel fs n))) as [|m ms] eqn:Hw;
      [reflexivity|].
    destruct (main_writes server fuel fs n m) as (games & _ & Hg & _);
      [rewrite Hw; apply elem_of_cons; by left | congruence].
  - rewrite main_eq, Hmissing.
    by destruct (fetch_all_tags server fuel n) as [[[[hub_sizes|e]|] n'] evs].
Qed.

(** C3. The keys of the final mapping are exactly the expected ids: an
    id of [games.json] is a key even when neither the aggregated mapping
    nor the prior snapshot knows it, and a key of the aggregated mapping
    that is no expected id is no key of the final mapping. This holds of
    every mapping a run writes to [image-sizes.json]. *)
Theorem final_keys_are_expected_ids games hub_sizes existing_sizes :
  dom (final_sizes (reconcile games hub_sizes existing_sizes))
  = expected_ids games
  ∧ (∀ server fuel fs n m,
       m ∈ writes (snd (main server fuel fs n)) →
       ∃ games', games_json fs = Some games' ∧ dom m = expected_ids games').
Proof.
  split; [apply reconcile_dom|].
  intros server fuel fs n m Hm.
  destruct (main_writes server fuel fs n m Hm) as (games' & hub & Hg & _ & ->).
  exists games'. split; [exact Hg | apply reconcile_dom].
Qed.

(** On ids a and c expected, b aggregated only and c unknown to both
    mappings: b is dropped and c is kept with [0]. *)
Example final_keys_scenario :
  final_sizes (reconcile [Game "a"; Game "c"]
                 {[ "a" := hundredths 500; "b" := hundredths 320 ]} ∅)
  = {[ "a" := PFloat (hundredths 500); "c" := PInt 0 ]}.
Proof. vm_compute. reflexivity. Qed.

(** * Further properties *)

(** ** The reconciliation, run again *)

(** X1. The final mapping depends on the records of [games.json] only
    through the set of their ids: their order and repetitions do not
    change it. *)
Theorem final_mapping_depends_on_id_set games games' hub_sizes existing_sizes
    (Hids : expected_ids games = expected_ids games') :
  final_sizes (reconcile games hub_sizes existing_sizes)
  = final_sizes (reconcile games' hub_sizes existing_sizes).
Proof.
  apply map_eq. intros id. rewrite !reconcile_lookup.
  assert (Hiff : id ∈ map game_id games ↔ id ∈ map game_id games').
  { unfold expected_ids in Hids.
    rewrite <- !(elem_of_list_to_set (C := gset string)). by rewrite Hids. }
  destruct (decide (id ∈ map game_id games)) as [Hin|Hin].
  - rewrite decide_True; [done | by apply Hiff].
  - rewrite decide_False; [done | by rewrite <- Hiff].
Qed.

Lemma final_mapping_depends_on_id_set_witness :
  final_sizes (reconcile [Game "a"; Game "b"; Game "a"]
                 {[ "a" := hundredths 500 ]} {[ "b" := PFloat (hundredths 320) ]})
  = final_sizes (reconcile [Game "b"; Game "a"]
                   {[ "a" := hundredths 500 ]} {[ "b" := PFloat (hundredths 320) ]}).
Proof.
  apply (final_mapping_depends_on_id_set
           [Game "a"; Game "b"; Game "a"] [Game "b"; Game "a"]).
  vm_compute. reflexivity.
Defined.

Lemma reconcile_counts games hub_sizes existing_sizes :
  found_count (reconcile games hub_sizes existing_sizes)
  = length (List.filter (in_hub hub_sizes) games)
  ∧ warned (reconcile games hub_sizes existing_sizes)
    = map game_id (List.filter (λ g, negb (in_hub hub_sizes g)) games).
Proof.
  unfold reconcile.
  destruct (fold_counts hub_sizes existing_sizes games
              {| final_sizes := ∅; found_count := 0;
                 missing_count := 0; warned := [] |}) as (Hf & _ & Hw).
  split; [exact Hf | exact Hw].
Qed.

(** X2. The warnings name the records whose id is no key of the
    aggregated mapping, one warning per record, in the order of
    [games.json]; there are [missing_count] of them, and [found_count]
    counts the other records. *)
Theorem warnings_name_the_missing_records games hub_sizes existing_sizes :
  let r := reconcile games hub_sizes existing_sizes in
  warned r = map game_id (List.filter (λ g, negb (in_hub hub_sizes g)) games)
  ∧ length (warned r) = missing_count r
  ∧ found_count r = length (List.filter (in_hub hub_sizes) games)
  ∧ (∀ id, id ∈ warned r ↔ id ∈ map game_id games ∧ hub_sizes !! id = None).
Proof.
  cbn zeta.
  destruct (reconcile_counts games hub_sizes existing_sizes) as [Hf Hw].
  rewrite Hw, reconcile_missing, length_map.
  split; [done|]. split; [done|]. split; [done|].
  intros id. rewrite !list_elem_of_fmap. split.
  - intros (g & -> & Hg). apply list_elem_of_In, filter_In in Hg as [Hg Hmiss].
    split; [exists g; split; [done | by apply list_elem_of_In]|].
    rewrite in_hub_lookup in Hmiss. by destruct (hub_sizes !! game_id g).
  - intros [(g & -> & Hg) Hnone]. exists g. split; [done|].
    apply list_elem_of_In, filter_In. split; [by apply list_elem_of_In|].
    by rewrite in_hub_lookup, Hnone.
Qed.

(** X3. Running the reconciliation again on its own output, with the
    same games and the same aggregated mapping, gives that output
    again. *)
Theorem rerun_gives_same_mapping games hub_sizes existing_sizes :
  let previous := final_sizes (reconcile games hub_sizes existing_sizes) in
  final_sizes (reconcile games hub_sizes previous) = previous.
Proof.
  cbn zeta. apply map_eq. intros id. rewrite !reconcile_lookup.
  destruct (decide (id ∈ map game_id games)) as [Hin|Hin]; [|done].
  f_equal. unfold resolved at 1.
  destruct (hub_sizes !! id) as [s|] eqn:Hs.
  - unfold resolved. by rewrite Hs.
  - rewrite reconcile_lookup, decide_True by done. reflexivity.
Qed.

(** X4. When the crawl brings nothing back, every size of the previous
    output is carried over: reconciling the empty aggregated mapping
    against the previous output of the same games gives that output
    again, with every record counted missing. *)
Theorem empty_crawl_keeps_previous_sizes games hub_sizes existing_sizes :
  let previous := final_sizes (reconcile games hub_sizes existing_sizes) in
  let r := reconcile games ∅ previous in
  final_sizes r = previous
  ∧ found_count r = 0%nat
  ∧ missing_count r = length games.
Proof.
  cbn zeta. split; [|split].
  - apply map_eq. intros id. rewrite !reconcile_lookup.
    destruct (decide (id ∈ map game_id games)) as [Hin|Hin]; [|done].
    f_equal. unfold resolved at 1. rewrite lookup_empty.
    rewrite reconcile_lookup, decide_True by done. reflexivity.
  - destruct (reconcile_counts games ∅
                (final_sizes (reconcile games hub_sizes existing_sizes)))
      as [-> _].
    apply filter_none_length. intros g _. rewrite in_hub_lookup.
    by rewrite lookup_empty.
  - rewrite reconcile_missing.
    pose proof (filter_partition_length (in_hub ∅) games) as Hlen.
    rewrite filter_none_length in Hlen; [exact Hlen|].
    intros g _. rewrite in_hub_lookup. by rewrite lookup_empty.
Qed.

(** ** The run as a whole *)

(** X5. An exception raised while the pages are crawled ends [main] with
    that exception, before [image-sizes.json] is opened for writing: the
    run writes nothing and makes no request beyond those of the crawl. *)
Theorem crawl_exception_ends_run_unwritten server fuel fs n e
    (Hraise : fst (fst (fetch_all_tags server fuel n)) = Some (Raise e)) :
  fst (fst (main server fuel fs n)) = Some (Raise e)
  ∧ writes (snd (main server fuel fs n)) = []
  ∧ gets (snd (main server fuel fs n))
    = gets (snd (fetch_all_tags server fuel n)).
Proof.
  rewrite main_eq.
  destruct (fetch_all_tags_events server fuel n) as [_ Hw].
  destruct (fetch_all_tags server fuel n) as [[[[hub_sizes|e']|] n'] evs];
    cbn [fst snd] in *; try discriminate.
  injection Hraise as ->. rewrite !writes_print, Hw. done.
Qed.

Lemma crawl_exception_ends_run_unwritten_witness :
  let server :=
    scripted [Response (Body (Some [Tag (Some "a") (Some PNone) None]) None)] in
  let fs := Files (Some [Game "a"]) (Some {[ "a" := PFloat (hundredths 320) ]}) in
  fst (fst (main server 1 fs 0%nat)) = Some (Raise TypeError)
  ∧ writes (snd (main server 1 fs 0%nat)) = []
  ∧ gets (snd (main server 1 fs 0%nat))
    = gets (snd (fetch_all_tags server 1 0%nat)).
Proof.
  apply (crawl_exception_ends_run_unwritten
           (scripted [Response (Body (Some [Tag (Some "a") (Some PNone) None]) None)])
           1 (Files (Some [Game "a"]) (Some {[ "a" := PFloat (hundredths 320) ]}))
           0 TypeError).
  reflexivity.
Defined.





(** ** Absorbing records: which keys change *)

(** The loop body leaves the mapping as it was or stores one size under
    the non-empty name of the record. *)
Lemma absorb_tag_cases all_tags t all_tags' :
  absorb_tag all_tags t = Ok all_tags' →
  all_tags' = all_tags
  ∨ (default "" (tag_name t) ≠ ""
     ∧ ∃ full_size g,
         effective_size t = Ok full_size ∧ gt_zero full_size = Ok true
         ∧ size_gb full_size = Ok g
         ∧ all_tags' = <[default "" (tag_name t) := g]> all_tags).
Proof.
  intros Habsorb. unfold absorb_tag in Habsorb.
  destruct (effective_size t) as [full_size|e] eqn:Heff; [|discriminate].
  cbn in Habsorb.
  destruct (String.eqb (default "" (tag_name t)) "") eqn:Hname; cbn in Habsorb;
    [injection Habsorb as <-; by left|].
  apply String.eqb_neq in Hname.
  destruct (gt_zero full_size) as [[|]|e] eqn:Hpos; cbn in Habsorb;
    [|injection Habsorb as <-; by left|discriminate].
  destruct (size_gb full_size) as [g|e] eqn:Hgb; [|discriminate].
  injection Habsorb as <-. right. split; [done|]. by exists full_size, g.
Qed.

Lemma absorb_app tags1 : ∀ all_tags tags2,
  absorb all_tags (tags1 ++ tags2)
  = rbind (absorb all_tags tags1) (λ m, absorb m tags2).
Proof.
  induction tags1 as [|t tags1 IH]; intros all_tags tags2; [reflexivity|].
  cbn. destruct (absorb_tag all_tags t) as [m|e]; [cbn; apply IH | reflexivity].
Qed.


Lemma absorb_pages_concat bs : ∀ all_tags,
  absorb_pages all_tags bs = absorb all_tags (concat (map page_tags bs)).
Proof.
  induction bs as [|b bs IH]; intros all_tags; [reflexivity|].
  cbn [absorb_pages map concat]. rewrite absorb_app.
  destruct (absorb all_tags (page_tags b)) as [m|e]; [cbn; apply IH | reflexivity].
Qed.

Lemma absorb_tag_frame all_tags t all_tags' k :
  absorb_tag all_tags t = Ok all_tags' → k ≠ default "" (tag_name t) →
  all_tags' !! k = all_tags !! k.
Proof.
  intros Habsorb Hk.
  destruct (absorb_tag_cases _ _ _ Habsorb) as [->|(_ & fs & g & _ & _ & _ & ->)];
    [done|].
  by rewrite lookup_insert_ne.
Qed.

Lemma absorb_frame tags : ∀ all_tags all_tags' k,
  absorb all_tags tags = Ok all_tags' → k ∉ tag_names tags →
  all_tags' !! k = all_tags !! k.
Proof.
  induction tags as [|t tags IH]; intros all_tags all_tags' k Habsorb Hk;
    cbn in Habsorb.
  - by injection Habsorb as <-.
  - destruct (absorb_tag all_tags t) as [m|e] eqn:Ht; [|discriminate].
    cbn in Habsorb. unfold tag_names in Hk. cbn in Hk.
    rewrite (IH m all_tags' k Habsorb) by (unfold tag_names; set_solver).
    apply (absorb_tag_frame _ _ _ _ Ht). set_solver.
Qed.

Lemma absorb_tag_dom all_tags t all_tags' :
  absorb_tag all_tags t = Ok all_tags' →
  dom all_tags ⊆ dom all_tags'
  ∧ dom all_tags' ⊆ dom all_tags ∪ {[ default "" (tag_name t) ]}
  ∧ ("" ∉ dom all_tags → "" ∉ dom all_tags').
Proof.
  intros Habsorb.
  destruct (absorb_tag_cases _ _ _ Habsorb)
    as [->|(Hname & fs & g & _ & _ & _ & ->)].
  - set_solver.
  - rewrite dom_insert_L. set_solver.
Qed.

Lemma absorb_dom tags : ∀ all_tags all_tags',
  absorb all_tags tags = Ok all_tags' →
  dom all_tags ⊆ dom all_tags'
  ∧ dom all_tags' ⊆ dom all_tags ∪ tag_names tags
  ∧ ("" ∉ dom all_tags → "" ∉ dom all_tags').
Proof.
  induction tags as [|t tags IH]; intros all_tags all_tags' Habsorb;
    cbn in Habsorb.
  - injection Habsorb as <-. set_solver.
  - destruct (absorb_tag all_tags t) as [m|e] eqn:Ht; [|discriminate].
    cbn in Habsorb.
    destruct (absorb_tag_dom _ _ _ Ht) as (H1 & H2 & H3).
    destruct (IH _ _ Habsorb) as (H1' & H2' & H3').
    unfold tag_names in *. cbn. set_solver.
Qed.

(** X8. Absorbing records never removes a key and never touches the
    size of a name that none of the records carries; the keys it adds
    are names of the records, and the empty string is never one. *)
Theorem absorb_touches_only_named_keys tags all_tags all_tags'
    (Habsorb : absorb all_tags tags = Ok all_tags') :
  (∀ k, k ∉ tag_names tags → all_tags' !! k = all_tags !! k)
  ∧ dom all_tags ⊆ dom all_tags'
  ∧ dom all_tags' ⊆ dom all_tags ∪ tag_names tags
  ∧ ("" ∉ dom all_tags → "" ∉ dom all_tags').
Proof.
  split; [intros k; by apply absorb_frame|]. by apply absorb_dom.
Qed.

Lemma absorb_touches_only_named_keys_witness :
  let tags := [Tag (Some "a") (Some (PInt 3221225472)) None;
               Tag None (Some (PInt 5)) None;
               Tag (Some "z") (Some (PInt 0)) None] in
  let all_tags : gmap string float := {[ "b" := hundredths 150 ]} in
  let all_tags' : gmap string float :=
    {[ "a" := hundredths 300; "b" := hundredths 150 ]} in
  (∀ k, k ∉ tag_names tags → all_tags' !! k = all_tags !! k)
  ∧ dom all_tags ⊆ dom all_tags'
  ∧ dom all_tags' ⊆ dom all_tags ∪ tag_names tags
  ∧ ("" ∉ dom all_tags → "" ∉ dom all_tags').
Proof.
  apply (absorb_touches_only_named_keys
           [Tag (Some "a") (Some (PInt 3221225472)) None;
            Tag None (Some (PInt 5)) None;
            Tag (Some "z") (Some (PInt 0)) None]
           {[ "b" := hundredths 150 ]}
           {[ "a" := hundredths 300; "b" := hundredths 150 ]}).
  vm_compute. reflexivity.
Defined.

(** X9. The last record stored under a name wins: when a record with a
    non-empty name and a positive number of bytes is absorbed and no
    record after it carries its name, the mapping holds the size of
    that record under the name, whatever was stored there before. *)
Theorem last_record_of_a_name_wins before t after all_tags all_tags' full_size
    (Habsorb : absorb all_tags (before ++ t :: after) = Ok all_tags')
    (Hname : default "" (tag_name t) ≠ "")
    (Hsize : effective_size t = Ok full_size)
    (Hpos : gt_zero full_size = Ok true)
    (Hlast : default "" (tag_name t) ∉ tag_names after) :
  ∃ g, size_gb full_size = Ok g
       ∧ all_tags' !! default "" (tag_name t) = Some g.
Proof.
  rewrite absorb_app in Habsorb.
  destruct (absorb all_tags before) as [m0|e]; [|discriminate].
  cbn in Habsorb.
  destruct (absorb_tag m0 t) as [m1|e] eqn:Ht; [|discriminate].
  cbn in Habsorb.
  rewrite (absorb_frame _ _ _ _ Habsorb Hlast).
  destruct (absorb_tag_cases _ _ _ Ht)
    as [->|(_ & fs & g & Hfs & _ & Hg & ->)].
  - unfold absorb_tag in Ht. rewrite Hsize in Ht. cbn in Ht.
    apply String.eqb_neq in Hname. rewrite Hname, Hpos in Ht. cbn in Ht.
    destruct (size_gb full_size) as [g|e] eqn:Hg; [|discriminate].
    injection Ht as Ht. exists g. split; [done|].
    rewrite <- Ht at 1. apply lookup_insert_eq.
  - rewrite Hsize in Hfs. injection Hfs as <-.
    exists g. split; [done | apply lookup_insert_eq].
Qed.

Lemma last_record_of_a_name_wins_witness :
  ∃ g, size_gb (PInt (2 ^ 29)) = Ok g
       ∧ ({[ "a" := hundredths 50; "b" := hundredths 150 ]} : gmap string float)
           !! default "" (tag_name (Tag (Some "a") (Some (PInt (2 ^ 29))) None))
         = Some g.
Proof.
  apply (last_record_of_a_name_wins
           [Tag (Some "a") (Some (PInt 3221225472)) None]
           (Tag (Some "a") (Some (PInt (2 ^ 29))) None)
           [Tag (Some "b") None (Some [Image (Some (PInt (3 * 2 ^ 29)))])]
           ∅ {[ "a" := hundredths 50; "b" := hundredths 150 ]} (PInt (2 ^ 29)));
    try (vm_compute; reflexivity).
  - discriminate.
  - vm_compute. intros H. discriminate H.
Defined.

(** ** The crawl: what a turn does to the mapping *)

(** A body that [fetch_page] returns is the answer to one of its
    requests for that page. *)
Lemma fetch_page_got_from_server server page n d n' evs :
  fetch_page server page n = (Ok (Got d), n', evs) →
  ∃ k, (n <= k < n')%nat ∧ server k page = Response d.
Proof.
  rewrite fetch_page_eq.
  destruct (server n page) as [|d0] eqn:E0;
    [|intros [= <- <- _]; exists n; split; [lia | done]].
  destruct (server (S n) page) as [|d1] eqn:E1;
    [|intros [= <- <- _]; exists (S n); split; [lia | done]].
  destruct (server (S (S n)) page) as [|d2] eqn:E2;
    [|intros [= <- <- _]; exists (S (S n)); split; [lia | done]].
  destruct (server (S (S (S n))) page) as [|d3] eqn:E3;
    [discriminate|].
  intros [= <- <- _]. exists (S (S (S n))). split; [lia | done].
Qed.

(** One turn of the loop: it stops with the mapping as it was, or it
    absorbs the records of a body the server sent for the page. *)
Lemma loop_body_turn server page data all_tags n :
  match fst (fst (loop_body server page data all_tags n)) with
  | Ok (Stop m) =>
      m = all_tags
      ∨ ∃ d k, server k page = Response d ∧ continues d = false
               ∧ absorb all_tags (page_tags d) = Ok m
  | Ok (Next d m) =>
      ∃ k, server k page = Response d ∧ continues d = true
           ∧ absorb all_tags (page_tags d) = Ok m
  | Raise e =>
      ∃ d k, server k page = Response d
             ∧ absorb all_tags (page_tags d) = Raise e
  end.
Proof.
  destruct (fetch_page_outcome server page n)
    as (k & evs & _ & _ & _ & [Hf|[d Hf]]).
  - rewrite (loop_body_gave_up _ _ _ _ _ _ _ Hf). by left.
  - rewrite (loop_body_got _ _ _ _ _ _ _ _ Hf).
    destruct (fetch_page_got_from_server _ _ _ _ _ _ Hf) as (j & _ & Hj).
    unfold continues, page_tags.
    destruct (default [] (results d)) as [|t ts] eqn:Hr; [by left|].
    destruct (absorb all_tags (t :: ts)) as [m|e] eqn:Ha; cbn [fst].
    + destruct (truthy (default PNone (next d))) eqn:Hn; cbn.
      * exists j. by rewrite Hr, Hn.
      * right. exists d, j. by rewrite Hr, Hn.
    + exists d, j. by rewrite Hr.
Qed.

(** What holds of the mapping at the start and is kept by absorbing a
    page the server can send, holds of the mapping the crawl returns;
    what holds of every exception of such an absorption, holds of the
    exception the crawl raises. *)
Lemma crawl_result_invariant (P : gmap string float → Prop) (Q : exn → Prop)
    server :
  (∀ m d k p, server k p = Response d → P m →
     match absorb m (page_tags d) with Ok m' => P m' | Raise e => Q e end) →
  ∀ fuel page data all_tags n, P all_tags →
    match fst (fst (crawl server fuel page data all_tags n)) with
    | Some (Ok m) => P m
    | Some (Raise e) => Q e
    | None => True
    end.
Proof.
  intros Hstep. induction fuel as [|fuel IH]; intros page data all_tags n HP;
    [done|].
  rewrite crawl_S.
  pose proof (loop_body_turn server page data all_tags n) as Hturn.
  destruct (loop_body server page data all_tags n) as [[[t|e] n'] evs];
    cbn [fst] in Hturn.
  - destruct t as [m|d m]; cbn [fst].
    + destruct Hturn as [->|(d & k & Hk & _ & Ha)]; [done|].
      specialize (Hstep all_tags d k page Hk HP). by rewrite Ha in Hstep.
    + destruct Hturn as (k & Hk & _ & Ha).
      specialize (Hstep all_tags d k page Hk HP). rewrite Ha in Hstep.
      specialize (IH (S page) (Some d) m n' Hstep).
      by destruct (crawl server fuel (S page) (Some d) m n') as [[r n''] evs'].
  - destruct Hturn as (d & k & Hk & Ha).
    specialize (Hstep all_tags d k page Hk HP). by rewrite Ha in Hstep.
Qed.

Lemma fetch_all_tags_result_invariant (P : gmap string float → Prop)
    (Q : exn → Prop) server fuel n :
  (∀ m d k p, server k p = Response d → P m →
     match absorb m (page_tags d) with Ok m' => P m' | Raise e => Q e end) →
  P ∅ →
  match fst (fst (fetch_all_tags server fuel n)) with
  | Some (Ok m) => P m
  | Some (Raise e) => Q e
  | None => True
  end.
Proof.
  intros Hstep HP. rewrite fetch_all_tags_eq.
  pose proof (crawl_result_invariant P Q server Hstep fuel 1 None ∅ n HP) as H.
  by destruct (crawl server fuel 1 None ∅ n) as [[r n'] evs].
Qed.

(** ** The crawl: which exceptions *)






(** X11. When every body the server sends has a [full_size] that is
    absent or an [int] and [images] sizes that are absent or numbers,
    all within the range of floats, the crawl raises nothing, and with
    [games.json] there neither does the run up to its summary. *)
Theorem typed_pages_raise_nothing server fuel n
    (Hpages : serves_typed_pages server) :
  (∀ e, fst (fst (fetch_all_tags server fuel n)) ≠ Some (Raise e))
  ∧ (∀ fs games e, games_json fs = Some games →
       fst (fst (main server fuel fs n)) ≠ Some (Raise e)).
Proof.
  assert (Hcrawl : ∀ e, fst (fst (fetch_all_tags server fuel n)) ≠ Some (Raise e)).
  { intros e He.
    pose proof (fetch_all_tags_result_invariant (λ _, True) (λ _, False)
                  server fuel n) as H.
    rewrite He in H. apply H; [|done].
    intros m d k p Hd _. destruct (Hpages k p d Hd) as [Ht Hr].
    by destruct (absorb_in_range (page_tags d) m Ht Hr) as [m' ->]. }
  split; [exact Hcrawl|].
  intros fs games e Hgames. rewrite main_eq, Hgames.
  destruct (fetch_all_tags server fuel n) as [[[[hub|e']|] n'] evs] eqn:Hf;
    cbn [fst snd] in *; try done.
  intros [= <-]. by apply (Hcrawl e').
Qed.

Lemma typed_pages_raise_nothing_witness :
  let server :=
    scripted [Response (Body (Some [Tag (Some "a") (Some (PInt 3221225472)) None]) None)] in
  (∀ e, fst (fst (fetch_all_tags server 3 0%nat)) ≠ Some (Raise e))
  ∧ (∀ fs games e, games_json fs = Some games →
       fst (fst (main server 3 fs 0%nat)) ≠ Some (Raise e)).
Proof.
  apply (typed_pages_raise_nothing
           (scripted [Response (Body (Some [Tag (Some "a") (Some (PInt 3221225472)) None]) None)])
           3 0).
  intros k p d Hd. unfold scripted in Hd.
  destruct k as [|[|k]]; cbn in Hd; try discriminate.
  injection Hd as <-. split; vm_compute; reflexivity.
Defined.

(** X12. Every key of the mapping the crawl returns is the non-empty
    name of a tag record that the server sent in some body. *)
Theorem keys_are_names_of_served_records server fuel n all_tags n' evs
    (Hrun : fetch_all_tags server fuel n = (Some (Ok all_tags), n', evs)) :
  ∀ name, name ∈ dom all_tags →
    name ≠ "" ∧ ∃ t, served server t ∧ tag_name t = Some name.
Proof.
  pose proof (fetch_all_tags_result_invariant
    (λ m, ∀ name, name ∈ dom m →
            name ≠ "" ∧ ∃ t, served server t ∧ tag_name t = Some name)
    (λ _, True) server fuel n) as H.
  rewrite Hrun in H. apply H; [|set_solver].
  intros m d k p Hd HP.
  destruct (absorb m (page_tags d)) as [m'|e] eqn:Ha; [|done].
  destruct (absorb_dom _ _ _ Ha) as (_ & Hsub & Hempty).
  intros name Hname.
  assert (Hne : name ≠ "").
  { intros ->. destruct (decide ("" ∈ dom m)) as [Hin|Hnin].
    - by destruct (HP "" Hin).
    - by apply Hempty. }
  apply Hsub in Hname.
  apply elem_of_union in Hname as [Hname|Hname]; [by apply HP|].
  split; [exact Hne|].
  unfold tag_names in Hname. apply elem_of_list_to_set in Hname.
  apply list_elem_of_fmap in Hname as (t & Ht & Hin).
  exists t. split; [by exists k, p, d|].
  destruct (tag_name t) as [s|]; cbn in Ht; [by subst | by subst].
Qed.

Lemma keys_are_names_of_served_records_witness :
  let d := Body (Some [Tag (Some "a") (Some (PInt 3221225472)) None;
                       Tag None (Some (PInt 5)) None]) None in
  "a" ≠ "" ∧ ∃ t, served (scripted [Response d]) t ∧ tag_name t = Some "a".
Proof.
  apply (keys_are_names_of_served_records
           (scripted [Response (Body (Some [Tag (Some "a") (Some (PInt 3221225472)) None;
                                            Tag None (Some (PInt 5)) None]) None)])
           1 0 {[ "a" := hundredths 300 ]} 1
           [Print MsgFetching; Get 1; Print (MsgPage 1 2 1)]).
  - vm_compute. reflexivity.
  - apply elem_of_dom. exists (hundredths 300). reflexivity.
Defined.

(** ** The sizes stored are not negative *)

Lemma iter_pos_invariant {A} (P : A → Prop) (f : A → A) :
  (∀ x, P x → P (f x)) → ∀ p x, P x → P (SpecFloat.iter_pos f p x).
Proof.
  intros Hf. induction p as [p IH|p IH|]; intros x Hx; cbn; auto.
Qed.

Lemma shr_1_nonneg mrs : 0 <= shr_m mrs → 0 <= shr_m (shr_1 mrs).
Proof.
  destruct mrs as [m r s]. cbn. intros Hm.
  destruct m as [|[p|p|]|p]; cbn; lia.
Qed.

Lemma shr_fexp_nonneg m e l :
  0 <= m → 0 <= shr_m (fst (shr_fexp 53 1024 m e l)).
Proof.
  intros Hm. unfold shr_fexp, shr.
  assert (H0 : 0 <= shr_m (shr_record_of_loc m l))
    by (destruct l as [|[]]; exact Hm).
  destruct (fexp 53 1024 (Zdigits2 m + e) - e) as [|p|p]; cbn [fst]; try exact H0.
  apply (iter_pos_invariant (λ mrs, 0 <= shr_m mrs)); [apply shr_1_nonneg | exact H0].
Qed.

Lemma binary_round_aux_not_negative mx ex lx :
  0 <= mx → not_negative (binary_round_aux 53 1024 false mx ex lx) = true.
Proof.
  intros Hm. unfold binary_round_aux.
  pose proof (shr_fexp_nonneg mx ex lx Hm) as H1.
  destruct (shr_fexp 53 1024 mx ex lx) as [mrs' e']. cbn [fst] in H1.
  assert (H2 : 0 <= round_nearest_even (shr_m mrs') (loc_of_shr_record mrs')).
  { unfold round_nearest_even.
    destruct (loc_of_shr_record mrs') as [|[]]; try lia.
    destruct (Z.even (shr_m mrs')); lia. }
  pose proof (shr_fexp_nonneg _ e' loc_Exact H2) as H3.
  destruct (shr_fexp 53 1024 _ e' loc_Exact) as [mrs'' e'']. cbn [fst] in H3.
  destruct (shr_m mrs'') as [|m|m]; [reflexivity| |lia].
  by destruct (e'' <=? 1024 - 53).
Qed.

Lemma fdiv_not_negative m1 e1 m2 e2 :
  not_negative (fdiv (S754_finite false m1 e1) (S754_finite false m2 e2)) = true.
Proof.
  unfold fdiv, SFdiv, SFdiv_core_binary.
  set (s := _ - _ - _).
  set (m' := match s with Z.pos _ => _ | _ => _ end).
  assert (Hm' : 0 <= m').
  { subst m'. destruct s; [lia| |lia]. apply Z.shiftl_nonneg. lia. }
  pose proof (Z.div_pos m' (Z.pos m2) Hm' ltac:(lia)) as Hq.
  unfold Z.div in Hq.
  destruct (Z.div_eucl m' (Z.pos m2)) as [q r]. cbn [fst] in Hq.
  by apply binary_round_aux_not_negative.
Qed.

Lemma nearest_quotient_not_negative a d :
  0 <= a → 0 < d → not_negative (nearest_quotient a d) = true.
Proof.
  intros Ha Hd. destruct a as [|m|m]; [reflexivity| |lia].
  destruct d as [|p|p]; [lia| |lia]. apply fdiv_not_negative.
Qed.

Lemma round2_not_negative x : not_negative x = true → not_negative (round2 x) = true.
Proof.
  destruct x as [[|]|[|]| |[|] m e]; cbn; try done. intros _.
  destruct (0 <=? e) eqn:He; [reflexivity|]. apply Z.leb_gt in He.
  set (h := round_half_even _ _).
  assert (Hh : 0 <= h).
  { subst h. unfold round_half_even.
    assert (Hq : 0 <= 100 * Z.pos m / 2 ^ (- e))
      by (apply Z.div_pos; [lia | apply Z.pow_pos_nonneg; lia]).
    destruct (2 * _ ?= _); [destruct (Z.even _)| |]; lia. }
  destruct (h =? 0) eqn:E; [reflexivity|].
  apply nearest_quotient_not_negative; lia.
Qed.

Lemma positive_float f :
  fltb (S754_zero false) f = true → not_negative f = true.
Proof. destruct f as [[|]|[|]| |[|] m e]; cbn; congruence. Qed.

Lemma size_gb_not_negative full_size g :
  gt_zero full_size = Ok true → size_gb full_size = Ok g →
  not_negative g = true.
Proof.
  unfold gt_zero, size_gb.
  destruct (as_num full_size) as [[a|f]|]; [| |discriminate].
  - intros [= Ha]. apply Z.ltb_lt in Ha. unfold truediv.
    destruct (Z.abs a <? float_limit * 1024 ^ 3); [|discriminate].
    cbn [rbind]. intros [= <-].
    apply round2_not_negative, nearest_quotient_not_negative; lia.
  - intros [= Hf]. apply positive_float in Hf.
    change (truediv (NFloat f) (1024 ^ 3))
      with (rbind (float_of_int (1024 ^ 3)) (λ d, Ok (fdiv f d))).
    replace (float_of_int (1024 ^ 3))
      with (Ok (S754_finite false 4503599627370496 (-22)) : res float)
      by (vm_compute; reflexivity).
    cbn [rbind]. intros [= <-]. apply round2_not_negative.
    destruct f as [[|]|[|]| |[|] m e]; try discriminate;
      [reflexivity | reflexivity | apply fdiv_not_negative].
Qed.

(** X13. Every size in the mapping the crawl returns is [+0.0], a
    positive finite float or [+inf]: never negative, never a NaN and
    never [-0.0]. *)
Theorem stored_sizes_are_not_negative server fuel n all_tags n' evs
    (Hrun : fetch_all_tags server fuel n = (Some (Ok all_tags), n', evs)) :
  ∀ name g, all_tags !! name = Some g → not_negative g = true.
Proof.
  intros name g Hg.
  assert (Hfrom : from_positive_bytes all_tags).
  { rewrite fetch_all_tags_eq in Hrun.
    apply (crawl_from_positive_bytes server fuel 1 None ∅ n); [done|].
    destruct (crawl server fuel 1 None ∅ n) as [[r n''] evs'].
    by injection Hrun as -> _ _. }
  destruct (Hfrom name g Hg) as (full_size & Hpos & Hgb).
  by apply (size_gb_not_negative full_size).
Qed.

Lemma stored_sizes_are_not_negative_witness :
  not_negative (S754_zero false) = true.
Proof.
  refine (stored_sizes_are_not_negative
            (scripted [Response (Body (Some [Tag (Some "a") (Some (PInt 3221225472)) None;
                                             Tag (Some "tiny") (Some (PInt 1)) None;
                                             Tag (Some "n") (Some (PInt (-7))) None])
                                   None)])
            1 0 {[ "a" := hundredths 300; "tiny" := S754_zero false ]} 1
            [Print MsgFetching; Get 1; Print (MsgPage 1 3 2)] _
            "tiny" (S754_zero false) _).
  - vm_compute. reflexivity.
  - reflexivity.
Defined.

(** ** Requests and sleeps *)

Lemma sleeps_app evs evs' : sleeps (evs ++ evs') = sleeps evs ++ sleeps evs'.
Proof. apply omap_app. Qed.

Lemma pace_app evs : ∀ slept evs',
  pace slept (evs ++ evs')
  = match pace slept evs with
    | Some slept' => pace slept' evs'
    | None => None
    end.
Proof.
  induction evs as [|ev evs IH]; intros slept evs'; [reflexivity|].
  destruct ev; cbn; [destruct slept; [apply IH | reflexivity] | apply IH..].
Qed.

Lemma fetch_page_trace server page n :
  ∃ r n' evs,
    fetch_page server page n = (Ok r, n', evs)
    ∧ (r = GaveUp ∨ ∃ d, r = Got d)
    ∧ n' = (n + length (gets evs))%nat
    ∧ (length (sleeps evs) + 1)%nat = length (gets evs)
    ∧ sleeps evs `prefix_of` [2; 4; 8]%Q
    ∧ (∀ d, server n page = Response d → r = Got d ∧ sleeps evs = [])
    ∧ pace true evs = Some false.
Proof.
  rewrite fetch_page_eq.
  destruct (server n page) as [|d0].
  2:{ eexists _, _, _. split; [reflexivity|]. cbn.
      repeat split; eauto; try lia; try congruence.
      by exists [2; 4; 8]%Q. }
  destruct (server (S n) page) as [|d1].
  2:{ eexists _, _, _. split; [reflexivity|]. cbn.
      repeat split; eauto; try lia; try congruence.
      by exists [4; 8]%Q. }
  destruct (server (S (S n)) page) as [|d2].
  2:{ eexists _, _, _. split; [reflexivity|]. cbn.
      repeat split; eauto; try lia; try congruence.
      by exists [8]%Q. }
  destruct (server (S (S (S n))) page) as [|d3];
    (eexists _, _, _; split; [reflexivity|]; cbn;
     repeat split; eauto; try lia; try congruence; by exists []).
Qed.

(** X14. Fetching a page raises nothing and ends with a body or by
    giving up. Each of its requests is counted once; each retry comes
    after exactly one sleep, and the sleeps are the first ones of 2, 4
    and 8 seconds, none when the first request succeeds. *)
Theorem fetch_page_sleeps_before_each_retry server page n :
  ∃ r n' evs,
    fetch_page server page n = (Ok r, n', evs)
    ∧ (r = GaveUp ∨ ∃ d, r = Got d)
    ∧ n' = (n + length (gets evs))%nat
    ∧ (length (sleeps evs) + 1)%nat = length (gets evs)
    ∧ sleeps evs `prefix_of` [2; 4; 8]%Q
    ∧ (∀ d, server n page = Response d → r = Got d ∧ sleeps evs = [])
    ∧ pace true evs = Some false.
Proof. apply fetch_page_trace. Qed.

Lemma loop_body_trace server page data all_tags n :
  snd (fst (loop_body server page data all_tags n))
  = (n + length (gets (snd (loop_body server page data all_tags n))))%nat
  ∧ (length (sleeps (snd (loop_body server page data all_tags n))) + 1)%nat
    = length (gets (snd (loop_body server page data all_tags n)))
  ∧ pace true (snd (loop_body server page data all_tags n)) = Some false.
Proof.
  destruct (fetch_page_trace server page n)
    as (r & n' & evs & Hf & Hr & Hn & Hs & _ & _ & Hp).
  destruct Hr as [->|[d ->]].
  - rewrite (loop_body_gave_up _ _ _ _ _ _ _ Hf). done.
  - rewrite (loop_body_got _ _ _ _ _ _ _ _ Hf).
    destruct (default [] (results d)) as [|t ts]; [done|].
    destruct (absorb all_tags (t :: ts)); [|done]. cbn [fst snd].
    rewrite gets_app, sleeps_app, pace_app, Hp. cbn.
    rewrite !app_nil_r. done.
Qed.

Lemma crawl_trace server fuel : ∀ page data all_tags n,
  snd (fst (crawl server fuel page data all_tags n))
  = (n + length (gets (snd (crawl server fuel page data all_tags n))))%nat
  ∧ is_Some (pace true (snd (crawl server fuel page data all_tags n)))
  ∧ (is_Some (fst (fst (crawl server fuel page data all_tags n))) →
     (length (sleeps (snd (crawl server fuel page data all_tags n))) + 1)%nat
     = length (gets (snd (crawl server fuel page data all_tags n)))).
Proof.
  induction fuel as [|fuel IH]; intros page data all_tags n.
  - cbn. split; [lia|]. split; [eauto|]. intros [? ?]. done.
  - rewrite crawl_S.
    destruct (loop_body_trace server page data all_tags n) as (Hn & Hs & Hp).
    destruct (loop_body server page data all_tags n) as [[[t|e] n'] evs];
      cbn [fst snd] in *; [|by eauto].
    destruct t as [m|d m]; cbn [fst snd]; [by eauto|].
    specialize (IH (S page) (Some d) m n').
    destruct (crawl server fuel (S page) (Some d) m n') as [[r n''] evs'].
    cbn [fst snd] in *. destruct IH as (IHn & IHp & IHs).
    rewrite gets_app, sleeps_app, pace_app, Hp, gets_sleep, !length_app.
    cbn [pace]. split; [lia|]. split; [exact IHp|].
    intros Hr. specialize (IHs Hr).
    change (sleeps (Sleep (1 # 2) :: evs')) with ((1 # 2)%Q :: sleeps evs').
    cbn [length]. lia.
Qed.

(** X15. The crawl never sends two requests without a sleep in between:
    every request but the first comes after a sleep. In a crawl that
    has ended there is one sleep less than there are requests, and every
    request is counted once. The same pace holds of the whole run. *)
Theorem requests_are_paced server fuel n :
  is_Some (pace true (snd (fetch_all_tags server fuel n)))
  ∧ snd (fst (fetch_all_tags server fuel n))
    = (n + length (gets (snd (fetch_all_tags server fuel n))))%nat
  ∧ (is_Some (fst (fst (fetch_all_tags server fuel n))) →
     (length (sleeps (snd (fetch_all_tags server fuel n))) + 1)%nat
     = length (gets (snd (fetch_all_tags server fuel n))))
  ∧ (∀ fs, is_Some (pace true (snd (main server fuel fs n)))).
Proof.
  assert (Hcrawl := crawl_trace server fuel 1 None ∅ n).
  assert (Hfetch :
    is_Some (pace true (snd (fetch_all_tags server fuel n)))
    ∧ snd (fst (fetch_all_tags server fuel n))
      = (n + length (gets (snd (fetch_all_tags server fuel n))))%nat
    ∧ (is_Some (fst (fst (fetch_all_tags server fuel n))) →
       (length (sleeps (snd (fetch_all_tags server fuel n))) + 1)%nat
       = length (gets (snd (fetch_all_tags server fuel n))))).
  { rewrite fetch_all_tags_eq.
    destruct (crawl server fuel 1 None ∅ n) as [[r n'] evs].
    cbn [fst snd] in *. exact (conj (proj1 (proj2 Hcrawl))
                                 (conj (proj1 Hcrawl) (proj2 (proj2 Hcrawl)))). }
  destruct Hfetch as (Hp & Hn & Hs).
  split; [exact Hp|]. split; [exact Hn|]. split; [exact Hs|].
  intros fs. rewrite main_eq.
  destruct (fetch_all_tags server fuel n) as [[[[hub|e]|] n'] evs];
    cbn [fst snd] in *; try exact Hp.
  destruct (games_json fs) as [games|]; cbn [snd].
  - cbn [pace]. rewrite pace_app. destruct Hp as [s ->]. cbn [pace].
    rewrite pace_app.
    assert (Hw : ∀ ids b, pace b (map (λ id, Print (MsgTagMissing id)) ids) = Some b)
      by (induction ids; intros; [reflexivity | cbn; auto]).
    rewrite Hw. cbn. eauto.
  - cbn [pace]. rewrite pace_app. destruct Hp as [s ->]. cbn. eauto.
Qed.

(** ** A server that answers every request *)

Lemma loop_body_answered server page data all_tags n b :
  server n page = Response b →
  loop_body server page data all_tags n =
  match page_tags b with
  | [] => (Ok (Stop all_tags), S n, [Get page])
  | _ :: _ =>
      match absorb all_tags (page_tags b) with
      | Ok m =>
          (Ok (if continues b then Next b m else Stop m), S n,
           [Get page; Print (MsgPage page (length (page_tags b)) (size m))])
      | Raise e => (Raise e, S n, [Get page])
      end
  end.
Proof.
  intros Hb.
  assert (Hf : fetch_page server page n = (Ok (Got b), S n, [Get page]))
    by (rewrite fetch_page_eq, Hb; reflexivity).
  rewrite (loop_body_got _ _ _ _ _ _ _ _ Hf). unfold continues, page_tags.
  destruct (default [] (results b)) as [|t ts]; [reflexivity|].
  destruct (absorb all_tags (t :: ts)); [|reflexivity].
  by destruct (truthy (default PNone (next b))).
Qed.

Lemma crawl_answered server bs : ∀ last page data all_tags n m fuel,
  (∀ i b, (bs ++ [last]) !! i = Some b →
          server (n + i)%nat (page + i)%nat = Response b) →
  forallb continues bs = true → continues last = false →
  absorb_pages all_tags (bs ++ [last]) = Ok m →
  (length bs < fuel)%nat →
  ∃ evs,
    crawl server fuel page data all_tags n
    = (Some (Ok m), (n + length bs + 1)%nat, evs)
    ∧ gets evs = seq page (length bs + 1)
    ∧ sleeps evs = repeat (1 # 2)%Q (length bs).
Proof.
  induction bs as [|b bs IH];
    intros last page data all_tags n m fuel Hserver Hgo Hstop Habsorb Hfuel;
    (destruct fuel as [|fuel]; [cbn in Hfuel; lia|]); rewrite crawl_S.
  - assert (Hlast : server n page = Response last).
    { specialize (Hserver 0%nat last eq_refl).
      by rewrite !Nat.add_0_r in Hserver. }
    rewrite (loop_body_answered _ _ _ _ _ _ Hlast), Hstop.
    cbn in Habsorb.
    destruct (page_tags last) as [|t ts] eqn:Ht.
    + cbn in Habsorb. injection Habsorb as <-.
      eexists. split; [cbn; by rewrite Nat.add_0_r, Nat.add_1_r|]. done.
    + destruct (absorb all_tags (t :: ts)) as [m'|e]; [|discriminate].
      cbn in Habsorb. injection Habsorb as <-.
      eexists. split; [cbn; by rewrite Nat.add_0_r, Nat.add_1_r|]. done.
  - assert (Hb : server n page = Response b).
    { specialize (Hserver 0%nat b eq_refl).
      by rewrite !Nat.add_0_r in Hserver. }
    cbn in Hgo. apply andb_true_iff in Hgo as [Hb_go Hgo].
    rewrite (loop_body_answered _ _ _ _ _ _ Hb), Hb_go.
    cbn [app absorb_pages] in Habsorb.
    assert (Hne : page_tags b ≠ [])
      by (unfold continues in Hb_go; destruct (page_tags b); done).
    destruct (absorb all_tags (page_tags b)) as [m1|e] eqn:Ha; [|discriminate].
    cbn [rbind] in Habsorb.
    destruct (page_tags b) as [|t ts] eqn:Ht; [done|].
    destruct (IH last (S page) (Some b) m1 (S n) m fuel) as (evs & Hc & Hg & Hs);
      [|done|done|done|cbn in Hfuel; lia|].
    { intros i b' Hi. specialize (Hserver (S i) b' Hi).
      by rewrite !Nat.add_succ_r in Hserver. }
    rewrite Hc. eexists. split; [|split].
    + f_equal. f_equal. cbn. lia.
    + rewrite gets_app, gets_sleep, Hg. reflexivity.
    + rewrite sleeps_app.
      change (sleeps (Sleep (1 # 2) :: evs)) with ((1 # 2)%Q :: sleeps evs).
      rewrite Hs. reflexivity.
Qed.

(** X16. On a server that answers every request at once, with bodies
    that all have records and a truthy [next] but the last, the crawl
    ends once it has as many turns as there are bodies: it requests the
    pages once each, in order, sleeps half a second between two pages,
    and returns the records of the pages absorbed in page order. *)
Theorem crawl_of_an_answering_server server bs last n m fuel
    (Hserver : ∀ i b, (bs ++ [last]) !! i = Some b →
                      server (n + i)%nat (1 + i)%nat = Response b)
    (Hgo : forallb continues bs = true)
    (Hstop : continues last = false)
    (Habsorb : absorb ∅ (concat (map page_tags (bs ++ [last]))) = Ok m)
    (Hfuel : (length bs < fuel)%nat) :
  ∃ evs,
    fetch_all_tags server fuel n
    = (Some (Ok m), (n + length bs + 1)%nat, evs)
    ∧ gets evs = seq 1 (length bs + 1)
    ∧ sleeps evs = repeat (1 # 2)%Q (length bs).
Proof.
  rewrite <- absorb_pages_concat in Habsorb.
  rewrite fetch_all_tags_eq.
  destruct (crawl_answered server bs last 1 None ∅ n m fuel
              Hserver Hgo Hstop Habsorb Hfuel) as (evs & -> & Hg & Hs).
  eexists. split; [reflexivity|]. done.
Qed.

Lemma crawl_of_an_answering_server_witness :
  let b1 := Body (Some [Tag (Some "a") (Some (PInt 3221225472)) None;
                        Tag (Some "b") (Some (PInt (2 ^ 29))) None])
              (Some (PStr "https://hub.docker.com/page2")) in
  let b2 := Body (Some [Tag (Some "a") (Some (PInt (3 * 2 ^ 29))) None]) None in
  ∃ evs,
    fetch_all_tags (scripted [Response b1; Response b2]) 2 0%nat
    = (Some (Ok {[ "a" := hundredths 150; "b" := hundredths 50 ]}),
       (0 + length [b1] + 1)%nat, evs)
    ∧ gets evs = seq 1 (length [b1] + 1)
    ∧ sleeps evs = repeat (1 # 2)%Q (length [b1]).
Proof.
  apply (crawl_of_an_answering_server
           (scripted [Response (Body (Some [Tag (Some "a") (Some (PInt 3221225472)) None;
                                            Tag (Some "b") (Some (PInt (2 ^ 29))) None])
                                  (Some (PStr "https://hub.docker.com/page2")));
                      Response (Body (Some [Tag (Some "a") (Some (PInt (3 * 2 ^ 29))) None]) None)])
           [Body (Some [Tag (Some "a") (Some (PInt 3221225472)) None;
                        Tag (Some "b") (Some (PInt (2 ^ 29))) None])
              (Some (PStr "https://hub.docker.com/page2"))]
           (Body (Some [Tag (Some "a") (Some (PInt (3 * 2 ^ 29))) None]) None)
           0 {[ "a" := hundredths 150; "b" := hundredths 50 ]} 2).
  - intros i b Hi. destruct i as [|[|i]]; cbn in Hi; try discriminate;
      injection Hi as <-; reflexivity.
  - reflexivity.
  - reflexivity.
  - vm_compute. reflexivity.
  - cbn. lia.
Defined.

(** ** Records that are skipped *)

(** X17. A record whose [full_size] is a number other than 0 that is
    not positive (a negative size, a NaN) is skipped without an error,
    and its [images] are not read: whatever they hold, the mapping stays
    as it was. *)
Theorem negative_size_is_skipped all_tags t v
    (Hfull : tag_full_size t = Some v)
    (Hnonzero : eq_zero v = false)
    (Hnotpos : gt_zero v = Ok false) :
  absorb_tag all_tags t = Ok all_tags.
Proof.
  unfold absorb_tag. rewrite (effective_size_no_fallback t v Hfull Hnonzero).
  cbn. rewrite Hnotpos. cbn.
  by destruct (negb (String.eqb (default "" (tag_name t)) "")).
Qed.

Lemma negative_size_is_skipped_witness :
  absorb_tag {[ "a" := hundredths 300 ]}
    (Tag (Some "a") (Some (PInt (-7)))
       (Some [Image (Some (PStr "12 MB")); Image (Some (PInt 9000000000))]))
  = Ok {[ "a" := hundredths 300 ]}.
Proof.
  apply (negative_size_is_skipped {[ "a" := hundredths 300 ]}
           (Tag (Some "a") (Some (PInt (-7)))
              (Some [Image (Some (PStr "12 MB")); Image (Some (PInt 9000000000))]))
           (PInt (-7))); reflexivity.
Defined.

(** X18. A [full_size] that is no number and not 0 (a string, [null], a
    list) raises a [TypeError] when the record has a name, and nothing
    when its name is empty or missing: the name is tested first, and the
    size is compared only for a named record. *)
Theorem unnamed_record_is_not_compared all_tags t v
    (Hfull : tag_full_size t = Some v)
    (Hnonnumber : as_num v = None) :
  absorb_tag all_tags t
  = if String.eqb (default "" (tag_name t)) "" then Ok all_tags
    else Raise TypeError.
Proof.
  assert (Hz : eq_zero v = false) by (unfold eq_zero; by rewrite Hnonnumber).
  unfold absorb_tag. rewrite (effective_size_no_fallback t v Hfull Hz).
  cbn. destruct (String.eqb (default "" (tag_name t)) ""); cbn; [done|].
  unfold gt_zero. by rewrite Hnonnumber.
Qed.

Lemma unnamed_record_is_not_compared_witness :
  absorb_tag ∅ (Tag None (Some (PStr "3 GB")) None)
  = if String.eqb (default "" (tag_name (Tag None (Some (PStr "3 GB")) None))) ""
    then Ok ∅ else Raise TypeError.
Proof.
  apply (unnamed_record_is_not_compared ∅ (Tag None (Some (PStr "3 GB")) None)
           (PStr "3 GB")); reflexivity.
Defined.

Lemma sum_from_ints ns : ∀ a,
  sum_from (NInt a) (map PInt ns) = Ok (NInt (a + foldr Z.add 0 ns)).
Proof.
  induction ns as [|n ns IH]; intros a; cbn.
  - by rewrite Z.add_0_r.
  - rewrite IH. do 2 f_equal. lia.
Qed.

(** X19. When [full_size] is absent or 0 and the sizes of the [images]
    are integers, the effective size is their exact integer sum: no
    float is involved before the division by [1024 ** 3], and the record
    is stored exactly when it has a name and the sum is positive. *)
Theorem integer_image_sizes_add_up all_tags t ns
    (Hfull : tag_full_size t = None ∨ tag_full_size t = Some (PInt 0))
    (Hsizes : image_sizes t = map PInt ns) :
  effective_size t = Ok (PInt (foldr Z.add 0 ns))
  ∧ absorb_tag all_tags t
    = if negb (String.eqb (default "" (tag_name t)) "") && (0 <? foldr Z.add 0 ns)
      then rbind (size_gb (PInt (foldr Z.add 0 ns)))
             (λ g, Ok (<[default "" (tag_name t) := g]> all_tags))
      else Ok all_tags.
Proof.
  assert (Heff : effective_size t = Ok (PInt (foldr Z.add 0 ns))).
  { rewrite (effective_size_fallback t Hfull). unfold summed_images, sum_of.
    rewrite Hsizes, sum_from_ints. reflexivity. }
  split; [exact Heff|].
  unfold absorb_tag. rewrite Heff. cbn -[size_gb].
  destruct (negb (String.eqb (default "" (tag_name t)) "")); [|reflexivity].
  cbn -[size_gb]. by destruct (0 <? foldr Z.add 0 ns).
Qed.

Lemma integer_image_sizes_add_up_witness :
  let t := Tag (Some "c") None
             (Some [Image (Some (PInt (1024 ^ 3))); Image None;
                    Image (Some (PInt (2 ^ 29)))]) in
  let ns := [1024 ^ 3; 0; 2 ^ 29] in
  effective_size t = Ok (PInt (foldr Z.add 0 ns))
  ∧ absorb_tag ∅ t
    = if negb (String.eqb (default "" (tag_name t)) "") && (0 <? foldr Z.add 0 ns)
      then rbind (size_gb (PInt (foldr Z.add 0 ns)))
             (λ g, Ok (<[default "" (tag_name t) := g]> ∅))
      else Ok ∅.
Proof.
  apply (integer_image_sizes_add_up ∅
           (Tag (Some "c") None
              (Some [Image (Some (PInt (1024 ^ 3))); Image None;
                     Image (Some (PInt (2 ^ 29)))]))
           [1024 ^ 3; 0; 2 ^ 29]).
  - by left.
  - reflexivity.
Defined.

(** ** The size statistics *)

Lemma positive_sizes_non_number values v :
  v ∈ values → as_num v = None →
  Stats.positive_sizes values = Raise TypeError.
Proof.
  induction values as [|v0 values IH]; intros Hin Hnon.
  - by apply elem_of_nil in Hin.
  - cbn. unfold gt_zero.
    destruct (as_num v0) as [[a|f]|] eqn:Hv0; [| |reflexivity];
      (apply elem_of_cons in Hin as [->|Hin]; [congruence|]);
      cbn; by rewrite (IH Hin Hnon).
Qed.

Lemma size_statistics_non_number values v :
  v ∈ values → as_num v = None →
  Stats.size_statistics values = ([], Raise TypeError).
Proof.
  intros Hin Hnon. unfold Stats.size_statistics.
  rewrite (positive_sizes_non_number values v Hin Hnon).
  destruct values; [by apply elem_of_nil in Hin | reflexivity].
Qed.

Lemma lists_values_elem final_sizes values v :
  lists_values final_sizes values →
  v ∈ values ↔ ∃ id, final_sizes !! id = Some v.
Proof.
  unfold lists_values. intros ->. rewrite list_elem_of_fmap. split.
  - intros ([id v'] & -> & Hin). exists id. by apply elem_of_map_to_list.
  - intros [id Hid]. exists (id, v). split; [done|].
    by apply elem_of_map_to_list.
Qed.

(** X20. A value of the prior snapshot that is no number (a string,
    [null]) and is carried over for a game missing from the aggregated
    mapping makes the statistics raise a [TypeError] before any line of
    them is printed, in whatever order the dictionary lists its
    values. *)
Theorem carried_over_non_number_breaks_statistics
    games hub_sizes existing_sizes g v values
    (Hgame : g ∈ games)
    (Hmissing : hub_sizes !! game_id g = None)
    (Hsnapshot : existing_sizes !! game_id g = Some v)
    (Hnonnumber : as_num v = None)
    (Hvalues : lists_values
                 (final_sizes (reconcile games hub_sizes existing_sizes)) values) :
  Stats.size_statistics values = ([], Raise TypeError).
Proof.
  apply (size_statistics_non_number values v); [|exact Hnonnumber].
  apply (lists_values_elem _ _ _ Hvalues). exists (game_id g).
  rewrite reconcile_lookup, decide_True
    by (apply list_elem_of_fmap; by exists g).
  unfold resolved. by rewrite Hmissing, Hsnapshot.
Qed.

Lemma carried_over_non_number_breaks_statistics_witness :
  Stats.size_statistics [PFloat (hundredths 300); PStr "n/a"]
  = ([], Raise TypeError).
Proof.
  apply (carried_over_non_number_breaks_statistics
           [Game "a"; Game "b"] {[ "a" := hundredths 300 ]}
           {[ "b" := PStr "n/a" ]} (Game "b") (PStr "n/a")
           [PFloat (hundredths 300); PStr "n/a"]).
  - apply elem_of_cons. right. apply elem_of_cons. by left.
  - reflexivity.
  - reflexivity.
  - reflexivity.
  - unfold lists_values. vm_compute. apply Permutation_refl.
Defined.

Lemma positive_sizes_skip l1 v l2 :
  gt_zero v = Ok false →
  Stats.positive_sizes (l1 ++ v :: l2) = Stats.positive_sizes (l1 ++ l2).
Proof.
  intros Hv. induction l1 as [|v1 l1 IH]; cbn.
  - rewrite Hv. cbn. by destruct (Stats.positive_sizes l2).
  - by rewrite IH.
Qed.

(** X21. A value that is a number and not positive, such as the 0 of an
    unknown size, takes no part in the statistics: with or without it
    the same lines are printed and the block ends the same way. *)
Theorem statistics_ignore_non_positive l1 v l2
    (Hv : gt_zero v = Ok false) :
  Stats.size_statistics (l1 ++ v :: l2) = Stats.size_statistics (l1 ++ l2).
Proof.
  pose proof (positive_sizes_skip l1 v l2 Hv) as Hskip.
  unfold Stats.size_statistics. rewrite Hskip.
  destruct (l1 ++ l2) as [|w ws] eqn:Hl.
  - apply app_eq_nil in Hl as [-> ->]. reflexivity.
  - destruct (l1 ++ v :: l2) as [|w' ws'] eqn:Hl'; [|reflexivity].
    by destruct l1.
Qed.

Lemma statistics_ignore_non_positive_witness :
  Stats.size_statistics ([PFloat (hundredths 300)] ++ PInt 0 :: [PFloat (hundredths 150)])
  = Stats.size_statistics ([PFloat (hundredths 300)] ++ [PFloat (hundredths 150)]).
Proof.
  apply (statistics_ignore_non_positive [PFloat (hundredths 300)] (PInt 0)
           [PFloat (hundredths 150)]).
  reflexivity.
Defined.

Lemma positive_sizes_none values :
  (∀ v, v ∈ values → gt_zero v = Ok false) →
  Stats.positive_sizes values = Ok [].
Proof.
  induction values as [|v values IH]; intros H; [reflexivity|]. cbn.
  rewrite (H v) by (apply elem_of_cons; by left). cbn.
  rewrite IH; [reflexivity|]. intros w Hw. apply H, elem_of_cons. by right.
Qed.

Lemma gt_zero_number v x :
  as_num v = Some x →
  gt_zero v = Ok (match x with
                  | NInt n => 0 <? n
                  | NFloat f => fltb (S754_zero false) f
                  end).
Proof. intros Hx. unfold gt_zero. rewrite Hx. by destruct x. Qed.

Lemma positive_sizes_numbers values :
  Forall (λ v, is_Some (as_num v)) values →
  ∃ sizes, Stats.positive_sizes values = Ok sizes
    ∧ (∀ v, v ∈ values → gt_zero v = Ok true → sizes ≠ [])
    ∧ (length sizes <= length values)%nat
    ∧ (∀ x, x ∈ sizes → ∃ v, v ∈ values ∧ as_num v = Some x).
Proof.
  induction 1 as [|v values [x Hx] _ (sizes & Hs & Hpos & Hlen & Hfrom)].
  - exists []. split; [reflexivity|]. split; [|split; [done|]].
    + intros v Hv. by apply elem_of_nil in Hv.
    + intros x Hx. by apply elem_of_nil in Hx.
  - pose proof (gt_zero_number v x Hx) as Hb. cbn.
    rewrite Hb, Hs, Hx. cbn.
    set (b := match x with NInt n => 0 <? n | NFloat f => _ end) in *.
    exists (if b then x :: sizes else sizes). split; [reflexivity|].
    split; [|split].
    + intros w Hw Hwpos. apply elem_of_cons in Hw as [->|Hw].
      * rewrite Hb in Hwpos. injection Hwpos as ->. done.
      * destruct b; [done | by apply (Hpos w)].
    + destruct b; cbn; lia.
    + intros y Hy.
      assert (Hcases : y = x ∨ y ∈ sizes).
      { destruct b; [apply elem_of_cons in Hy as [->|Hy]; auto | auto]. }
      destruct Hcases as [->|Hin].
      * exists v. split; [apply elem_of_cons; by left | done].
      * destruct (Hfrom y Hin) as (w & Hw & Hwy).
        exists w. split; [apply elem_of_cons; by right | done].
Qed.

(** X22. When every value is a number, the statistics are printed
    exactly when some value is positive: with no positive value nothing
    is printed and the block ends normally, and with one the first line
    is the heading. After a crawl that brought nothing and without a
    prior snapshot, every size is 0 and nothing is printed. *)
Theorem statistics_need_a_positive_size values
    (Hnumbers : Forall (λ v, is_Some (as_num v)) values) :
  ((∀ v, v ∈ values → gt_zero v = Ok false) →
   Stats.size_statistics values = ([], Ok tt))
  ∧ (∀ v, v ∈ values → gt_zero v = Ok true →
       ∃ rest, fst (Stats.size_statistics values) = Stats.Header :: rest)
  ∧ (∀ games values',
       lists_values (final_sizes (reconcile games ∅ ∅)) values' →
       Stats.size_statistics values' = ([], Ok tt)).
Proof.
  assert (Hnone : ∀ vs, (∀ v, v ∈ vs → gt_zero v = Ok false) →
                        Stats.size_statistics vs = ([], Ok tt)).
  { intros vs H. unfold Stats.size_statistics.
    rewrite (positive_sizes_none vs H). by destruct vs. }
  split; [apply Hnone|]. split.
  - intros v Hv Hpos.
    destruct (positive_sizes_numbers values Hnumbers) as (sizes & Hs & Hne & _).
    specialize (Hne v Hv Hpos). unfold Stats.size_statistics. rewrite Hs.
    destruct values as [|w ws]; [by apply elem_of_nil in Hv|].
    destruct sizes as [|s rest]; [done|].
    destruct (Stats.to_float (Stats.min_from s rest)); [|cbn; eauto].
    destruct (Stats.to_float (Stats.max_from s rest)); [|cbn; eauto].
    destruct (rbind (sum_of (map of_num (s :: rest))) _); [|cbn; eauto].
    destruct (rbind (sum_of (map of_num (s :: rest))) Stats.to_float);
      cbn; eauto.
  - intros games values' Hvalues. apply Hnone. intros v Hv.
    apply (lists_values_elem _ _ _ Hvalues) in Hv as [id Hid].
    rewrite reconcile_lookup in Hid.
    destruct (decide (id ∈ map game_id games)); [|discriminate].
    unfold resolved in Hid. rewrite !lookup_empty in Hid.
    by injection Hid as <-.
Qed.

Lemma statistics_need_a_positive_size_witness :
  let values := [PInt 0; PFloat (hundredths 300); PBool true] in
  ((∀ v, v ∈ values → gt_zero v = Ok false) →
   Stats.size_statistics values = ([], Ok tt))
  ∧ (∀ v, v ∈ values → gt_zero v = Ok true →
       ∃ rest, fst (Stats.size_statistics values) = Stats.Header :: rest)
  ∧ (∀ games values',
       lists_values (final_sizes (reconcile games ∅ ∅)) values' →
       Stats.size_statistics values' = ([], Ok tt)).
Proof.
  apply (statistics_need_a_positive_size
           [PInt 0; PFloat (hundredths 300); PBool true]).
  repeat constructor; cbn; eauto.
Defined.

Lemma min_from_float rest : ∀ f,
  Forall (λ x, ∃ g, x = NFloat g) rest →
  ∃ g, Stats.min_from (NFloat f) rest = NFloat g.
Proof.
  induction rest as [|x rest IH]; intros f Hrest; [by exists f|].
  apply Forall_cons in Hrest as [[g ->] Hrest]. cbn.
  destruct (Stats.lt (NFloat g) (NFloat f)); by apply IH.
Qed.

Lemma max_from_float rest : ∀ f,
  Forall (λ x, ∃ g, x = NFloat g) rest →
  ∃ g, Stats.max_from (NFloat f) rest = NFloat g.
Proof.
  induction rest as [|x rest IH]; intros f Hrest; [by exists f|].
  apply Forall_cons in Hrest as [[g ->] Hrest]. cbn.
  destruct (Stats.gt (NFloat g) (NFloat f)); by apply IH.
Qed.

Lemma sum_from_floats sizes : ∀ f,
  Forall (λ x, ∃ g, x = NFloat g) sizes →
  ∃ t, sum_from (NFloat f) (map of_num sizes) = Ok (NFloat t).
Proof.
  induction sizes as [|x sizes IH]; intros f Hsizes; [by exists f|].
  apply Forall_cons in Hsizes as [[g ->] Hsizes]. cbn. by apply IH.
Qed.

Lemma positive_sizes_fresh values :
  Forall (λ v, v = PInt 0 ∨ ∃ f, v = PFloat f) values →
  ∃ sizes, Stats.positive_sizes values = Ok sizes
    ∧ Forall (λ x, ∃ g, x = NFloat g) sizes
    ∧ (length sizes <= length values)%nat.
Proof.
  induction 1 as [|v values Hv _ (sizes & Hs & Hfloat & Hlen)].
  - exists []. split; [reflexivity|]. split; [constructor | done].
  - cbn. rewrite Hs. destruct Hv as [->|[f ->]]; cbn.
    + exists sizes. split; [reflexivity|]. split; [done | lia].
    + exists (if fltb (S754_zero false) f then NFloat f :: sizes else sizes).
      split; [reflexivity|].
      destruct (fltb (S754_zero false) f); cbn; split; try done; try lia.
      constructor; eauto.
Qed.

(** X23. On a first run, without a prior snapshot, the statistics raise
    nothing: every value of the final mapping is a float of the
    aggregated mapping or the 0 of an unknown size, so nothing but
    floats is compared, added and formatted. (The number of values has
    to convert to a float for the average.) *)
Theorem first_run_statistics_end_normally games hub_sizes values
    (Hvalues : lists_values (final_sizes (reconcile games hub_sizes ∅)) values)
    (Hlen : Z.of_nat (length values) < float_limit) :
  snd (Stats.size_statistics values) = Ok tt.
Proof.
  assert (Hfresh : Forall (λ v, v = PInt 0 ∨ ∃ f, v = PFloat f) values).
  { apply Forall_forall. intros v Hv.
    apply (lists_values_elem _ _ _ Hvalues) in Hv as [id Hid].
    rewrite reconcile_lookup in Hid.
    destruct (decide (id ∈ map game_id games)); [|discriminate].
    unfold resolved in Hid. rewrite lookup_empty in Hid.
    destruct (hub_sizes !! id) as [s|]; injection Hid as <-; eauto. }
  destruct (positive_sizes_fresh values Hfresh) as (sizes & Hs & Hfloat & Hle).
  unfold Stats.size_statistics. rewrite Hs.
  destruct values as [|w ws]; [reflexivity|].
  destruct sizes as [|s rest]; [reflexivity|].
  pose proof Hfloat as Hall.
  apply Forall_cons in Hfloat as [[f ->] Hrest].
  destruct (min_from_float rest f Hrest) as [lo ->].
  destruct (max_from_float rest f Hrest) as [hi ->]. cbn [Stats.to_float].
  assert (Hsum : ∃ t, sum_of (map of_num (NFloat f :: rest)) = Ok (NFloat t)).
  { unfold sum_of. cbn [map of_num sum_from as_num add].
    replace (float_of_int 0) with (Ok (S754_zero false) : res float)
      by (vm_compute; reflexivity).
    cbn [rbind]. by apply sum_from_floats. }
  destruct Hsum as [t ->]. cbn [rbind truediv Stats.to_float].
  rewrite float_of_int_in_range; [reflexivity|].
  cbn [length] in *. lia.
Qed.

Lemma first_run_statistics_end_normally_witness :
  snd (Stats.size_statistics [PFloat (hundredths 300); PInt 0]) = Ok tt.
Proof.
  apply (first_run_statistics_end_normally
           [Game "a"; Game "b"] {[ "a" := hundredths 300 ]}
           [PFloat (hundredths 300); PInt 0]).
  - unfold lists_values. vm_compute. apply Permutation_refl.
  - vm_compute. reflexivity.
Defined.
